(** * Crawl-and-scrape node: request configuration assembly and dispatch

    A shallow embedding of the [execute] method of [CrawleeNode]
    (the version with raw header input, [processHeaders] and the
    navigator patch) together with the helper closures it defines:
    [parseRawHeaders], the raw cookie normalizer and [processHeaders].

    Modelling conventions.
    - A JavaScript string is the list of its code units, restricted to the
      range 0..255 that [ascii] offers.  [trim] and [toLowerCase] are the
      restrictions of the ECMAScript functions to that range.
    - Every separator and search argument in the source is a one-character
      string (['\n'], [';'], [':'], ['='], [' ']), so [split], [indexOf],
      [includes] and [startsWith] take a character.
    - A [Record<string, string>] object is the list of its own properties in
      the order [Object.keys] gives them: array-index keys first, in
      ascending numeric order, then the other keys in creation order.  The
      objects the code builds have [Object.prototype] as prototype, so an
      assignment to the key [__proto__] runs the inherited setter, which
      ignores a string and creates no property; defining a property in an
      object literal or by spread always creates it.
    - The two objects handed to [processHeaders] live in a store of objects,
      so that a write through a reference is seen by every holder of that
      reference.
    - The workflow host, the platform and the crawling library are
      parameters, gathered in [Host]; of the calls into them only the
      [ProxyConfiguration] constructor, [crawler.run], the [URL] constructor
      and the read of the input record in the [catch] block are taken to be
      able to throw. *)

From Stdlib Require Import Ascii String ZArith Lia.
From Equations Require Import Equations.
From stdpp Require Import base decidable option strings functions list.

Local Open Scope Z_scope.
Local Open Scope list_scope.

(** ** Strings *)

Abbreviation jstring := (list ascii).

Notation "'js' s" := (list_ascii_of_string s) (at level 9, s at level 0, only parsing).

Definition LF : ascii := "010"%char.
Definition SEMI : ascii := ";"%char.
Definition COLON : ascii := ":"%char.
Definition EQUALS : ascii := "="%char.
Definition SPACE : ascii := " "%char.
Definition QUOTE : ascii := "'"%char.
Definition DQUOTE : ascii := "034"%char.

(** WhiteSpace and LineTerminator code units below 256:
    TAB, LF, VT, FF, CR, SP and NBSP. *)
Definition is_white_space (c : ascii) : bool :=
  let n := nat_of_ascii c in
  ((9 <=? n)%nat && (n <=? 13)%nat) || (n =? 32)%nat || (n =? 160)%nat.

Fixpoint trimStart (s : jstring) : jstring :=
  match s with
  | [] => []
  | c :: s' => if is_white_space c then trimStart s' else s
  end.

Definition trimEnd (s : jstring) : jstring := reverse (trimStart (reverse s)).

(** [String.prototype.trim] *)
Definition trim (s : jstring) : jstring := trimEnd (trimStart s).

(** [String.prototype.split] with a one-character separator. *)
Fixpoint split (sep : ascii) (s : jstring) : list jstring :=
  match s with
  | [] => [[]]
  | c :: s' =>
      if decide (c = sep) then [] :: split sep s'
      else match split sep s' with
           | seg :: rest => (c :: seg) :: rest
           | [] => [[c]]
           end
  end.

(** [String.prototype.indexOf]: position of the first occurrence, or -1. *)
Fixpoint indexOf (c : ascii) (s : jstring) : Z :=
  match s with
  | [] => -1
  | c' :: s' =>
      if decide (c' = c) then 0
      else let i := indexOf c s' in if i =? -1 then -1 else i + 1
  end.

Definition includes (c : ascii) (s : jstring) : bool := bool_decide (c ∈ s).

Definition startsWith (c : ascii) (s : jstring) : bool :=
  match s with
  | c' :: _ => bool_decide (c' = c)
  | [] => false
  end.

(** Relative index resolution of [String.prototype.slice]. *)
Definition slice_index (len k : Z) : Z :=
  if k <? 0 then Z.max (len + k) 0 else Z.min k len.

(** [s.slice(start, end)] *)
Definition slice (s : jstring) (start end_ : Z) : jstring :=
  let len := Z.of_nat (length s) in
  let from := slice_index len start in
  let to := slice_index len end_ in
  take (Z.to_nat (to - from)) (drop (Z.to_nat from) s).

(** [s.slice(start)] *)
Definition slice_from (s : jstring) (start : Z) : jstring :=
  slice s start (Z.of_nat (length s)).

Definition is_quote (c : ascii) : Prop := c = QUOTE ∨ c = DQUOTE.

#[global] Instance is_quote_dec c : Decision (is_quote c).
Proof. unfold is_quote. apply _. Defined.

(** The global [replace] of [key] that deletes every single or double
    quote character. *)
Definition strip_quotes (s : jstring) : jstring :=
  filter (λ c, ¬ is_quote c) s.

Definition toLowerCase_unit (c : ascii) : ascii :=
  let n := nat_of_ascii c in
  if ((65 <=? n)%nat && (n <=? 90)%nat)
     || ((192 <=? n)%nat && (n <=? 222)%nat && negb (n =? 215)%nat)
  then ascii_of_nat (n + 32) else c.

(** [String.prototype.toLowerCase] *)
Definition toLowerCase (s : jstring) : jstring := map toLowerCase_unit s.

(** Truthiness of a string: non-empty. *)
Definition truthy (s : jstring) : bool :=
  match s with [] => false | _ => true end.

(** [parts.join(sep)] *)
Fixpoint join (sep : jstring) (parts : list jstring) : jstring :=
  match parts with
  | [] => []
  | [p] => p
  | p :: rest => p ++ sep ++ join sep rest
  end.

(** ** Objects used as string maps *)

Abbreviation JsObj := (list (jstring * jstring)).

(** [Object.keys(o)] *)
Definition obj_keys (o : JsObj) : list jstring := o.*1.

(** [o[k]]; [None] stands for [undefined]. *)
Fixpoint obj_get (k : jstring) (o : JsObj) : option jstring :=
  match o with
  | [] => None
  | (k', v) :: o' => if decide (k' = k) then Some v else obj_get k o'
  end.

(** [o.hasOwnProperty(k)] *)
Definition has_own (k : jstring) (o : JsObj) : bool := bool_decide (k ∈ obj_keys o).

(** The decimal text of a number below 10^10, and the number a text would
    be the decimal text of. *)
Definition digit (d : Z) : ascii := ascii_of_nat (Z.to_nat (48 + d)).

Fixpoint decimal_digits (fuel : nat) (n : Z) (acc : jstring) : jstring :=
  match fuel with
  | O => acc
  | S fuel' =>
      let acc' := digit (n mod 10) :: acc in
      if n / 10 =? 0 then acc' else decimal_digits fuel' (n / 10) acc'
  end.

Definition decimal_text (n : Z) : jstring := decimal_digits 10 n [].

Definition decimal_value (s : jstring) : Z :=
  fold_left (λ acc c, acc * 10 + (Z.of_nat (nat_of_ascii c) - 48)) s 0.

(** An array index: a key that is the canonical decimal text of an integer
    from 0 to 2^32 - 2. *)
Definition array_index (k : jstring) : option Z :=
  let n := decimal_value k in
  if (0 <=? n) && (n <? 4294967295) && bool_decide (decimal_text n = k)
  then Some n else None.

(** Writing the value of an existing property: it keeps its place. *)
Fixpoint obj_update (k v : jstring) (o : JsObj) : JsObj :=
  match o with
  | [] => []
  | (k', v') :: o' =>
      if decide (k' = k) then (k', v) :: o' else (k', v') :: obj_update k v o'
  end.

(** Where a new array-index property is listed: after the smaller array
    indices. *)
Fixpoint index_insert (n : Z) (k v : jstring) (o : JsObj) : JsObj :=
  match o with
  | [] => [(k, v)]
  | (k', v') :: o' =>
      match array_index k' with
      | Some n' =>
          if n' <? n then (k', v') :: index_insert n k v o' else (k, v) :: o
      | None => (k, v) :: o
      end
  end.

(** Creating a property: an array index is listed among the array indices,
    any other key last. *)
Definition obj_add (k v : jstring) (o : JsObj) : JsObj :=
  match array_index k with
  | Some n => index_insert n k v o
  | None => o ++ [(k, v)]
  end.

(** Defining a property, as an object literal and a spread do. *)
Definition obj_define (k v : jstring) (o : JsObj) : JsObj :=
  if has_own k o then obj_update k v o else obj_add k v o.

(** The key whose assignment goes to the setter inherited from
    [Object.prototype]. *)
Definition PROTO : jstring := js "__proto__".

(** [o[k] = v] for a string [v], on an object whose prototype is
    [Object.prototype]: an own property is written; a missing one is
    created, except [__proto__], for which the inherited setter is called
    and returns without a change. *)
Definition obj_set (k v : jstring) (o : JsObj) : JsObj :=
  if has_own k o then obj_update k v o
  else if bool_decide (k = PROTO) then o
  else obj_add k v o.

(** [delete o[k]] *)
Definition obj_delete (k : jstring) (o : JsObj) : JsObj :=
  filter (λ kv, kv.1 ≠ k) o.

(** [Object.assign(target, source)] on the contents of the two objects:
    the properties of [source] are assigned in turn. *)
Definition obj_assign (target source : JsObj) : JsObj :=
  fold_left (λ t kv, obj_set kv.1 kv.2 t) source target.

(** [{ ...target, ...source }]: the properties of [source] are defined in
    turn on a copy of [target]. *)
Definition obj_spread (target source : JsObj) : JsObj :=
  fold_left (λ t kv, obj_define kv.1 kv.2 t) source target.

(** The object built from [{}] by assigning the pairs in turn. *)
Definition put (m : JsObj) (kv : jstring * jstring) : JsObj := obj_set kv.1 kv.2 m.
Definition mapping_of (entries : list (jstring * jstring)) : JsObj :=
  fold_left put entries [].

(** [Array.prototype.find] *)
Fixpoint array_find {A} (p : A → bool) (l : list A) : option A :=
  match l with
  | [] => None
  | x :: l' => if p x then Some x else array_find p l'
  end.

(** An object literal or parsed JSON object has one property per key. *)
Definition wf_obj (o : JsObj) : Prop := NoDup (obj_keys o).

(** The order in which an object lists its properties: no key after a key
    that is not an array index is one, and an array index is smaller than
    those after it. *)
Fixpoint js_ordered (o : JsObj) : Prop :=
  match o with
  | [] => True
  | (k, _) :: o' =>
      match array_index k with
      | Some n => ∀ k', k' ∈ obj_keys o' → ∀ n', array_index k' = Some n' → n < n'
      | None => ∀ k', k' ∈ obj_keys o' → array_index k' = None
      end ∧ js_ordered o'
  end.

(** ** Header normalizer: [parseRawHeaders] *)

(** [raw.split('\n').map(l => l.trim()).filter(l => l)] *)
Definition header_lines (raw : jstring) : list jstring :=
  filter (λ l, truthy l = true) (map trim (split LF raw)).

(** Body of the [for (const line of lines)] loop of strategy 1. *)
Definition colon_step (headers : JsObj) (line : jstring) : JsObj :=
  let separatorIndex := indexOf COLON line in
  if separatorIndex =? -1 then headers
  else
    let key := trim (slice line 0 separatorIndex) in
    let value := trim (slice_from line (separatorIndex + 1)) in
    let key := strip_quotes key in
    if includes SPACE key then headers
    else if startsWith COLON key || negb (truthy key) then headers
    else obj_set key value headers.

(** One round of the [for (let i = 0; ...; i += 2)] loop of strategy 2 once
    both lines are known to exist: the headers after the round. *)
Definition alternating_step (headers : JsObj) (li lv : jstring) : JsObj :=
  let key := trim li in
  let value := trim lv in
  let key := strip_quotes key in
  if includes SPACE key || startsWith COLON key || negb (truthy key)
  then headers
  else obj_set key value headers.

(** The [for (let i = 0; i < lines.length; i += 2)] loop of strategy 2; the
    distance from [i] to the end of [lines] shrinks at every round. *)
Equations alternating_loop (lines : list jstring) (i : nat) (headers : JsObj)
  : JsObj by wf (length lines - i)%nat lt :=
alternating_loop lines i headers with decide (i < length lines)%nat := {
  | right _ => headers
  | left _ with decide (length lines ≤ i + 1)%nat := {
    | left _ => headers
    | right _ =>
        match lines !! i, lines !! (i + 1)%nat with
        | Some li, Some lv =>
            alternating_loop lines (i + 2) (alternating_step headers li lv)
        | _, _ => headers
        end } }.
Next Obligation. lia. Qed.

Definition parseRawHeaders (raw : jstring) : JsObj :=
  let lines := header_lines raw in
  let headers : JsObj := [] in
  let hasColons := existsb (includes COLON) lines in
  if hasColons then fold_left colon_step lines headers
  else alternating_loop lines 0 headers.

(** ** Cookie normalizer *)

(** The reducer passed to [reduce] in both places that parse a raw cookie
    string. *)
Definition cookie_reducer (acc : JsObj) (curr : jstring) : JsObj :=
  let separatorIndex := indexOf EQUALS curr in
  if separatorIndex =? -1 then acc
  else
    let key := slice curr 0 separatorIndex in
    let value := slice_from curr (separatorIndex + 1) in
    obj_set key value acc.

(** [raw.split(';').map(c => c.trim()).filter(c => c).reduce(..., {})] *)
Definition parseCookieString (raw : jstring) : JsObj :=
  fold_left cookie_reducer
    (filter (λ c, truthy c = true) (map trim (split SEMI raw))) [].

(** The raw branch of the cookie input: an empty string leaves [{}]. *)
Definition cookiesFromRawString (rawString : jstring) : JsObj :=
  if truthy rawString then parseCookieString rawString else [].

(** ** The object store

    [processHeaders] receives references to two objects owned by its caller
    and writes through one of them.  A store maps references to object
    contents; an effectful computation threads the store. *)

Abbreviation ref := nat.
Abbreviation Store := (ref → JsObj).
Definition Eff (A : Type) : Type := Store → A * Store.

#[global] Instance Eff_ret : MRet Eff := λ A x σ, (x, σ).
#[global] Instance Eff_bind : MBind Eff :=
  λ A B f m σ, let '(x, σ') := m σ in f x σ'.

(** Read the object behind a reference. *)
Definition deref (r : ref) : Eff JsObj := λ σ, (σ r, σ).

(** Replace the contents of the object behind a reference. *)
Definition modify (r : ref) (f : JsObj → JsObj) : Eff unit :=
  λ σ, (tt, <[r := f (σ r)]> σ).

(** ** Header/cookie reconciler: [processHeaders] *)

(** [(k) => k.toLowerCase() === name] *)
Definition lower_is (name : jstring) (k : jstring) : bool :=
  bool_decide (toLowerCase k = name).

(** [processedHeaders] is a fresh copy that nothing else refers to before
    it is returned, so it is carried as a value; [headers] and [cookies] are
    the caller's objects.  A key found among [Object.keys] has a value
    ([obj_get_of_key] below), so the branches for a missing value are never
    taken. *)
Definition processHeaders (headers cookies : ref) : Eff JsObj :=
  h ← deref headers;
  let processedHeaders : JsObj := h in
  let cookieKey := array_find (lower_is (js "cookie")) (obj_keys processedHeaders) in
  processedHeaders ←
    match cookieKey with
    | Some cookieKey =>
        if truthy cookieKey then
          match obj_get cookieKey processedHeaders with
          | Some rawCookie =>
              let extractedCookies := parseCookieString rawCookie in
              modify cookies (λ c, obj_assign c extractedCookies);;
              mret (obj_delete cookieKey processedHeaders)
          | None => mret processedHeaders
          end
        else mret processedHeaders
    | None => mret processedHeaders
    end;
  let encodingKey :=
    array_find (lower_is (js "accept-encoding")) (obj_keys processedHeaders) in
  match encodingKey with
  | Some encodingKey =>
      if truthy encodingKey then mret (obj_delete encodingKey processedHeaders)
      else mret processedHeaders
  | None => mret processedHeaders
  end.

(** A caller holding [jsonHeaders] at reference 0 and [cookiesObj] at
    reference 1, as each iteration of [execute] does. *)
Definition jsonHeaders_ref : ref := 0%nat.
Definition cookiesObj_ref : ref := 1%nat.

Definition item_store (jsonHeaders cookiesObj : JsObj) : Store :=
  <[jsonHeaders_ref := jsonHeaders]> (<[cookiesObj_ref := cookiesObj]> (λ _, [])).

(** ** Fetch dispatcher: the body of [execute] *)

(** [appendTimestampToUrl]; [now] is the decimal text of [Date.now()]. *)
Definition appendTimestampToUrl (now url : jstring) : jstring :=
  let separator := if includes "?"%char url then js "&" else js "?" in
  url ++ separator ++ js "_=" ++ now.

(** Calls the browser pre-navigation hook makes on the page. *)
Inductive PageAction :=
| SetExtraHTTPHeaders (headers : JsObj)
| AddInitScript (userAgent : jstring)
| SetViewportSize (width height : Z)
| AddCookies (cookies : list (jstring * jstring * jstring)).

(** The pre-navigation hook of the three Playwright crawlers. *)
Definition browserPreNavigationHook (originalUrl : jstring)
    (jsonHeaders cookiesObj : ref) : Eff (list PageAction) :=
  saneHeaders ← processHeaders jsonHeaders cookiesObj;
  let headerActions :=
    if (0 <? length (obj_keys saneHeaders))%nat then
      SetExtraHTTPHeaders saneHeaders ::
      match array_find (lower_is (js "user-agent")) (obj_keys saneHeaders) with
      | Some uaKey =>
          if truthy uaKey then
            match obj_get uaKey saneHeaders with
            | Some userAgent => [AddInitScript userAgent]
            | None => []
            end
          else []
      | None => []
      end
    else [] in
  c ← deref cookiesObj;
  let cookieActions :=
    if (0 <? length (obj_keys c))%nat then
      [AddCookies (map (λ '(name, value), (name, value, originalUrl)) c)]
    else [] in
  mret (headerActions ++ [SetViewportSize 1920 1080] ++ cookieActions).

(** The pre-navigation hook of the three Cheerio crawlers: the new value of
    [request.headers]. *)
Definition staticPreNavigationHook (request_headers : JsObj)
    (jsonHeaders cookiesObj : ref) : Eff JsObj :=
  saneHeaders ← processHeaders jsonHeaders cookiesObj;
  let request_headers :=
    if (0 <? length (obj_keys saneHeaders))%nat
    then obj_spread request_headers saneHeaders else request_headers in
  c ← deref cookiesObj;
  if (0 <? length (obj_keys c))%nat then
    let cookieString := join (js "; ") (map (λ '(key, value), key ++ js "=" ++ value) c) in
    mret (obj_define (js "Cookie") cookieString request_headers)
  else mret request_headers.

(** What the crawling library is asked to do for one item. *)
Record Fetch := {
  fetch_browser : bool;
  fetch_url : jstring;
  fetch_proxyUrls : option (list jstring);
  fetch_maxRequestsPerCrawl : option Z;
  fetch_requestHandlerTimeoutSecs : Z;
  fetch_headers : JsObj;
  fetch_page_setup : list PageAction;
  fetch_waitForLoadState : option jstring }.

(** What the request handler can read from a loaded document. *)
Record Page := {
  request_url : jstring;
  anchor_hrefs : list jstring;
  body_text : jstring;
  title_text : jstring;
  meta_description : option jstring;
  content : jstring }.

(** A thrown value: its message and, when it has one, its [context]. *)
Record ErrorContext := { ctx_itemIndex : option nat }.
Record JsError := { err_message : jstring; err_context : option ErrorContext }.

(** How [crawler.run] ends: it throws, or the request handler has been
    called on the pages that were loaded. *)
Inductive CrawlOutcome :=
| CrawlFailed (error : JsError)
| CrawlHandled (pages : list Page).

Inductive Payload :=
| LinksPayload (links : list jstring)
| TextPayload (text : jstring) (title description : option jstring)
| HtmlPayload (html : jstring) (title description : option jstring).

(** An entry of [returnData]: [json.status], [json.message], [json.data.url]
    and the other fields of [json.data]. *)
Record OutRecord := {
  out_status : jstring;
  out_message : jstring;
  out_url : jstring;
  out_payload : Payload }.

(** An entry of [items]; [json] is kept as its text. *)
Record Item := {
  item_json : jstring;
  item_error : option JsError;
  item_pairedItem : option nat }.

Record NodeParameters := {
  param_url : jstring;
  param_operation : jstring;
  param_useBrowser : bool;
  param_proxyUrls : jstring;
  param_headerInputType : jstring;
  param_jsonHeaders : JsObj;
  param_rawHeaderString : jstring;
  param_cookieInputType : jstring;
  param_jsonCookies : JsObj;
  param_rawCookieString : jstring }.

(** What leaves [execute] through a [throw]: the caught error with the
    item index written into its context, a [NodeOperationError] built from
    it, or the [TypeError] of reading [[0].json] off a missing input. *)
Inductive Thrown :=
| ThrowError (error : JsError)
| ThrowNodeOperationError (cause : JsError) (itemIndex : nat)
| ThrowTypeError.

Definition thrown_itemIndex (t : Thrown) : option nat :=
  match t with
  | ThrowError e => ctx ← err_context e; ctx_itemIndex ctx
  | ThrowNodeOperationError _ i => Some i
  | ThrowTypeError => None
  end.

(** The two arrays [execute] works on, and the fetches made so far. *)
Record ExecState := {
  items : list Item;
  returnData : list OutRecord;
  fetches : list Fetch }.

(** How a run of the loop ends within a number of rounds. *)
Inductive Completion :=
| Returned (returnData : list OutRecord)
| Threw (t : Thrown)
| StillRunning.

(** [set.add(x)] on the insertion-ordered content of a [Set]. *)
Definition Set_add (s : list jstring) (x : jstring) : list jstring :=
  if bool_decide (x ∈ s) then s else s ++ [x].

(** [[...new Set(xs)]] *)
Definition Set_of (xs : list jstring) : list jstring := fold_left Set_add xs [].

(** [value || null] for a string that may be missing. *)
Definition or_null (v : option jstring) : option jstring :=
  match v with
  | Some s => if truthy s then Some s else None
  | None => None
  end.

(** [a === b] on strings. *)
Definition eqs (a b : jstring) : bool := bool_decide (a = b).

(** The workflow host, the platform and the crawling library.
    - [getInputData inputIndex] is [this.getInputData(inputIndex)]; an input
      that does not exist has no first element.
    - [getNodeParameter itemIndex] holds the parameters of an item.
    - [continueOnFail] is [this.continueOnFail()].
    - [Date_now itemIndex] is the text of [Date.now()] while the item is
      processed.
    - [resolveURL href base] is [new URL(href, base).href], [None] when the
      constructor throws.
    - [initial_request_headers] are the headers a fresh request starts with.
    - [new_ProxyConfiguration proxyUrls] is the error that
      [new ProxyConfiguration({ proxyUrls })] throws, [None] when it returns.
    - [crawler_run] is the outcome of building the crawler for a configured
      fetch and calling [crawler.run]: it throws, or it returns after the
      request handler has been called on the pages that were loaded (none,
      when none could be loaded). *)
Record Host := {
  getInputData : nat → list Item;
  getNodeParameter : nat → NodeParameters;
  continueOnFail : bool;
  Date_now : nat → jstring;
  resolveURL : jstring → jstring → option jstring;
  initial_request_headers : JsObj;
  new_ProxyConfiguration : list jstring → option JsError;
  crawler_run : Fetch → CrawlOutcome }.

Section Execute.

Variable host : Host.

Definition item_jsonHeaders (p : NodeParameters) : JsObj :=
  if eqs (param_headerInputType p) (js "json") then param_jsonHeaders p
  else
    let rawHeaderString := param_rawHeaderString p in
    if truthy rawHeaderString then parseRawHeaders rawHeaderString else [].

Definition item_cookiesObj (p : NodeParameters) : JsObj :=
  if eqs (param_cookieInputType p) (js "json") then param_jsonCookies p
  else cookiesFromRawString (param_rawCookieString p).

Definition item_proxyConfiguration (p : NodeParameters) : option (list jstring) :=
  let proxyUrls :=
    filter (λ url, truthy url = true) (map trim (split LF (param_proxyUrls p))) in
  if (0 <? length proxyUrls)%nat then Some proxyUrls else None.

(** The error thrown while [proxyConfiguration] is set up: the constructor
    is called only for a list that is not empty. *)
Definition proxy_error (proxyUrls : option (list jstring)) : option JsError :=
  l ← proxyUrls; new_ProxyConfiguration host l.

(** What becomes of a fetch: setting up its proxy configuration throws, or
    the crawler is built with it and [run]. *)
Definition crawl (f : Fetch) : CrawlOutcome :=
  match proxy_error (fetch_proxyUrls f) with
  | Some error => CrawlFailed error
  | None => crawler_run host f
  end.

(** The crawler built for an item, with its hook applied to the item's
    [jsonHeaders] and [cookiesObj]. *)
Definition item_fetch (itemIndex : nat) (p : NodeParameters)
    (maxRequestsPerCrawl : option Z) : Fetch :=
  let originalUrl := param_url p in
  let σ := item_store (item_jsonHeaders p) (item_cookiesObj p) in
  let target := appendTimestampToUrl (Date_now host itemIndex) (param_url p) in
  if param_useBrowser p then
    {| fetch_browser := true;
       fetch_url := target;
       fetch_proxyUrls := item_proxyConfiguration p;
       fetch_maxRequestsPerCrawl := maxRequestsPerCrawl;
       fetch_requestHandlerTimeoutSecs := 60;
       fetch_headers := [];
       fetch_page_setup :=
         (browserPreNavigationHook originalUrl jsonHeaders_ref cookiesObj_ref σ).1;
       fetch_waitForLoadState := Some (js "networkidle") |}
  else
    {| fetch_browser := false;
       fetch_url := target;
       fetch_proxyUrls := item_proxyConfiguration p;
       fetch_maxRequestsPerCrawl := maxRequestsPerCrawl;
       fetch_requestHandlerTimeoutSecs := 30;
       fetch_headers :=
         (staticPreNavigationHook (initial_request_headers host)
            jsonHeaders_ref cookiesObj_ref σ).1;
       fetch_page_setup := [];
       fetch_waitForLoadState := None |}.

(** The link request handlers: [links.push] for every truthy [href] whose
    resolution does not throw. *)
Definition page_links (pg : Page) : list jstring :=
  fold_left
    (λ links href,
       if truthy href then
         match resolveURL host href (request_url pg) with
         | Some absolute => links ++ [absolute]
         | None => links
         end
       else links)
    (anchor_hrefs pg) [].

Definition links_record (originalUrl : jstring) (pages : list Page) : OutRecord :=
  let crawledData := map (λ pg, (originalUrl, page_links pg)) pages in
  let uniqueLinks := Set_of (concat (map snd crawledData)) in
  {| out_status := js "success";
     out_message := js "Crawling finished";
     out_url := originalUrl;
     out_payload := LinksPayload uniqueLinks |}.

Definition text_record (useBrowser : bool) (originalUrl : jstring) (pg : Page)
    : OutRecord :=
  {| out_status := js "success";
     out_message := js "Text extraction finished";
     out_url := originalUrl;
     out_payload :=
       if useBrowser
       then TextPayload (trim (body_text pg)) (Some (title_text pg)) (meta_description pg)
       else TextPayload (trim (body_text pg)) (or_null (Some (title_text pg)))
              (or_null (meta_description pg)) |}.

Definition html_record (useBrowser : bool) (originalUrl : jstring) (pg : Page)
    : OutRecord :=
  {| out_status := js "success";
     out_message := js "HTML extraction finished";
     out_url := originalUrl;
     out_payload :=
       if useBrowser
       then HtmlPayload (content pg) (Some (title_text pg)) (meta_description pg)
       else HtmlPayload (content pg) (or_null (Some (title_text pg)))
              (or_null (meta_description pg)) |}.

(** Running a crawler from state [st]: the fetch is made; the result is
    the error thrown by [run], or the records to append to [returnData]. *)
Definition run_crawler (f : Fetch) (records : list Page → list OutRecord)
    (st : ExecState) : ExecState * option JsError :=
  let st := {| items := items st; returnData := returnData st;
               fetches := fetches st ++ [f] |} in
  match crawler_run host f with
  | CrawlFailed error => (st, Some error)
  | CrawlHandled pages =>
      ({| items := items st; returnData := returnData st ++ records pages;
          fetches := fetches st |}, None)
  end.

(** The fetch an item asks for, if its operation is one of the three. *)
Definition item_request (itemIndex : nat) : option Fetch :=
  let p := getNodeParameter host itemIndex in
  if eqs (param_operation p) (js "extractLinks")
  then Some (item_fetch itemIndex p (Some 100))
  else if eqs (param_operation p) (js "extractText")
       || eqs (param_operation p) (js "extractHtml")
  then Some (item_fetch itemIndex p None)
  else None.

(** The [try] block of one loop iteration: the parameters are read and
    normalized, the proxy configuration is set up, and the operation is
    dispatched. *)
Definition try_block (itemIndex : nat) (st : ExecState)
    : ExecState * option JsError :=
  let p := getNodeParameter host itemIndex in
  let url := param_url p in
  let operation := param_operation p in
  let useBrowser := param_useBrowser p in
  match proxy_error (item_proxyConfiguration p) with
  | Some error => (st, Some error)
  | None =>
      if eqs operation (js "extractLinks") then
        run_crawler (item_fetch itemIndex p (Some 100))
          (λ pages, [links_record url pages]) st
      else if eqs operation (js "extractText") then
        run_crawler (item_fetch itemIndex p None) (map (text_record useBrowser url)) st
      else if eqs operation (js "extractHtml") then
        run_crawler (item_fetch itemIndex p None) (map (html_record useBrowser url)) st
      else (st, None)
  end.

(** The [catch] block. *)
Definition catch_block (itemIndex : nat) (error : JsError) (st : ExecState)
    : ExecState + Thrown :=
  if continueOnFail host then
    match getInputData host itemIndex with
    | first :: _ =>
        inl {| items := items st ++
                 [{| item_json := item_json first; item_error := Some error;
                     item_pairedItem := Some itemIndex |}];
               returnData := returnData st;
               fetches := fetches st |}
    | [] => inr ThrowTypeError
    end
  else
    match err_context error with
    | Some _ =>
        inr (ThrowError {| err_message := err_message error;
                           err_context := Some {| ctx_itemIndex := Some itemIndex |} |})
    | None => inr (ThrowNodeOperationError error itemIndex)
    end.

Definition run_item (itemIndex : nat) (st : ExecState) : ExecState + Thrown :=
  match try_block itemIndex st with
  | (st', None) => inl st'
  | (st', Some error) => catch_block itemIndex error st'
  end.

(** [for (let itemIndex = 0; itemIndex < items.length; itemIndex++)].  The
    bound is read again at every round and [items] can grow, so the loop
    is run for a given number of rounds. *)
Fixpoint execute_loop (rounds : nat) (itemIndex : nat) (st : ExecState)
    : Completion :=
  match rounds with
  | O => StillRunning
  | S rounds' =>
      if (itemIndex <? length (items st))%nat then
        match run_item itemIndex st with
        | inl st' => execute_loop rounds' (S itemIndex) st'
        | inr t => Threw t
        end
      else Returned (returnData st)
  end.

Definition execute (rounds : nat) : Completion :=
  execute_loop rounds 0
    {| items := getInputData host 0; returnData := []; fetches := [] |}.

End Execute.

(** ** Reference definitions, written from the specification

    These follow the wording of the specification and are compared with the
    definitions above. *)

Definition all_ws (w : jstring) : Prop := Forall (λ c, is_white_space c = true) w.



(** Splitting at the first occurrence of [c]: the text before it and the
    text after it. *)
Fixpoint cut_at_first (c : ascii) (s : jstring) : option (jstring * jstring) :=
  match s with
  | [] => None
  | x :: s' =>
      if decide (x = c) then Some ([], s')
      else '(l, r) ← cut_at_first c s'; Some (x :: l, r)
  end.

(** The value of the last pair with key [name]. *)
Definition last_binding (name : jstring) (entries : list (jstring * jstring))
    : option jstring :=
  snd <$> last (filter (λ kv, kv.1 = name) entries).

(** Cookie grammar: split on [;], trim, drop empty segments and segments
    without [=], cut the others at the first [=]. *)
Definition spec_cookie_entries (raw : jstring) : list (jstring * jstring) :=
  omap (cut_at_first EQUALS)
    (filter (λ seg, seg ≠ []) (map trim (split SEMI raw))).



(** A key with its quote characters taken out. *)
Definition spec_unquote (key : jstring) : jstring :=
  filter (λ c, c ≠ QUOTE ∧ c ≠ DQUOTE) key.

(** Header key validation: no space, not empty, not a pseudo-header. *)
Definition spec_valid_key (key : jstring) : bool :=
  negb (includes SPACE key) && negb (bool_decide (key = []))
  && negb (startsWith COLON key).

(** Colon form, one line: cut at the first colon, key trimmed and stripped
    of quotes, value trimmed, invalid keys discarded. *)
Definition spec_colon_entry (line : jstring) : option (jstring * jstring) :=
  '(before, after) ← cut_at_first COLON line;
  let key := spec_unquote (trim before) in
  if spec_valid_key key then Some (key, trim after) else None.

Definition spec_colon_entries (raw : jstring) : list (jstring * jstring) :=
  omap spec_colon_entry (split LF raw).


(** The lines of the input that are not blank, trimmed. *)
Definition spec_lines (raw : jstring) : list jstring :=
  filter (λ l, l ≠ []) (map trim (split LF raw)).

(** Alternating form: the lines taken two by two, a last line without a
    partner left out. *)
Fixpoint spec_pairs (lines : list jstring) : list (jstring * jstring) :=
  match lines with
  | k :: v :: rest => (k, v) :: spec_pairs rest
  | _ => []
  end.

Definition spec_alternating_entry (kv : jstring * jstring)
    : option (jstring * jstring) :=
  let key := spec_unquote kv.1 in
  if spec_valid_key key then Some (key, kv.2) else None.

Definition spec_alternating_entries (raw : jstring) : list (jstring * jstring) :=
  omap spec_alternating_entry (spec_pairs (spec_lines raw)).


(** One round of strategy 2 on a pair of lines. *)
Definition pair_step (headers : JsObj) (kv : jstring * jstring) : JsObj :=
  alternating_step headers kv.1 kv.2.







(** Removing the first key that is [name] up to case, as both halves of
    [processHeaders] do. *)
Definition drop_first_named (name : jstring) (h : JsObj) : JsObj :=
  match array_find (lower_is name) (obj_keys h) with
  | Some k => obj_delete k h
  | None => h
  end.

(** The reading of the reconciler under which the explicit cookie input
    wins: every entry of the cookie mapping is still there, with its value,
    after the call. *)
Definition explicit_cookies_win (σ : Store) (headers cookies : ref) : Prop :=
  ∀ name v,
    obj_get name (σ cookies) = Some v →
    obj_get name ((processHeaders headers cookies σ).2 cookies) = Some v.

(** The reading of the reconciler as a pure function: the cookie mapping
    passed in is the same after the call. *)
Definition cookies_argument_unchanged (σ : Store) (headers cookies : ref) : Prop :=
  (processHeaders headers cookies σ).2 cookies = σ cookies.

(** No key of [h] is [name] up to case. *)
Definition no_key_named (name : jstring) (h : JsObj) : Prop :=
  ∀ k, k ∈ obj_keys h → toLowerCase k ≠ name.

(** The user-agent values of the init scripts among the calls made on a
    page. *)
Definition init_scripts (setup : list PageAction) : list jstring :=
  omap (λ a, match a with AddInitScript ua => Some ua | _ => None end) setup.

(** The first occurrences of the elements of a list, in order. *)
Fixpoint unique_first (l : list jstring) : list jstring :=
  match l with
  | [] => []
  | x :: l' => x :: filter (λ y, y ≠ x) (unique_first l')
  end.

(** The links of the loaded pages: every non-empty [href] that resolves
    against the page's URL, without repetitions, in order of first
    occurrence. *)
Definition spec_links (resolve : jstring → jstring → option jstring)
    (pages : list Page) : list jstring :=
  unique_first
    (concat (map (λ pg,
       omap (λ href, resolve href (request_url pg))
         (filter (λ href, href ≠ []) (anchor_hrefs pg))) pages)).

(** ** A small host, used to run the definitions on examples

    Two sites, one reachable and one not; [execute] is run on a batch
    whose first item has one set of parameters and whose other items have
    another.  The resolver is a stand-in for the URL constructor that
    handles the two shapes of [href] the examples use. *)
Module Demo.

Definition item (json : string) : Item :=
  {| item_json := js json; item_error := None; item_pairedItem := None |}.

Definition parameters (url operation : string) : NodeParameters :=
  {| param_url := js url;
     param_operation := js operation;
     param_useBrowser := false;
     param_proxyUrls := [];
     param_headerInputType := js "json";
     param_jsonHeaders := [];
     param_rawHeaderString := [];
     param_cookieInputType := js "json";
     param_jsonCookies := [];
     param_rawCookieString := [] |}.

Definition input_data (batch : list Item) (inputIndex : nat) : list Item :=
  match inputIndex with O => batch | _ => [] end.

Definition node_parameter (first rest : NodeParameters) (itemIndex : nat)
    : NodeParameters :=
  match itemIndex with O => first | _ => rest end.

Definition now (_ : nat) : jstring := js "1700000000000".

Definition resolve (href base : jstring) : option jstring :=
  if startsWith "/"%char href then Some (js "http://up.test" ++ href)
  else if includes COLON href then Some href
  else None.

Definition rejected : JsError :=
  {| err_message := js "proxyUrls: expected a URL"; err_context := None |}.

(** A stand-in for the check of the constructor: an entry without a colon
    is no URL. *)
Definition proxy_constructor (proxyUrls : list jstring) : option JsError :=
  if forallb (includes COLON) proxyUrls then None else Some rejected.

Definition page : Page :=
  {| request_url := js "http://up.test/?_=1700000000000";
     anchor_hrefs := [js "/x"; js "http://y.com"; js "/x"];
     body_text := js " Hello ";
     title_text := js "T";
     meta_description := Some (js "D");
     content := js "<html></html>" |}.

(** The second site cannot be reached: [run] returns without a page. *)
Definition crawler (f : Fetch) : CrawlOutcome :=
  if bool_decide (fetch_url f = js "http://down.test?_=1700000000000")
  then CrawlHandled []
  else CrawlHandled [page].

Definition up (operation : string) : NodeParameters :=
  parameters "http://up.test/" operation.
Definition down (operation : string) : NodeParameters :=
  parameters "http://down.test" operation.

(** The parameters [p] with another proxy list. *)
Definition with_proxy (p : NodeParameters) (proxyUrls : string) : NodeParameters :=
  {| param_url := param_url p;
     param_operation := param_operation p;
     param_useBrowser := param_useBrowser p;
     param_proxyUrls := js proxyUrls;
     param_headerInputType := param_headerInputType p;
     param_jsonHeaders := param_jsonHeaders p;
     param_rawHeaderString := param_rawHeaderString p;
     param_cookieInputType := param_cookieInputType p;
     param_jsonCookies := param_jsonCookies p;
     param_rawCookieString := param_rawCookieString p |}.

(** [execute] on a batch whose first item uses [first] and whose other
    items use [rest]. *)
Definition host (batch : list Item) (first rest : NodeParameters)
    (policy : bool) : Host :=
  {| getInputData := input_data batch;
     getNodeParameter := node_parameter first rest;
     continueOnFail := policy;
     Date_now := now;
     resolveURL := resolve;
     initial_request_headers := [];
     new_ProxyConfiguration := proxy_constructor;
     crawler_run := crawler |}.

Definition run (batch : list Item) (first rest : NodeParameters)
    (policy : bool) (rounds : nat) : Completion :=
  execute (host batch first rest policy) rounds.

Definition browser_parameters (url operation : string) (headers : JsObj)
    : NodeParameters :=
  {| param_url := js url;
     param_operation := js operation;
     param_useBrowser := true;
     param_proxyUrls := [];
     param_headerInputType := js "json";
     param_jsonHeaders := headers;
     param_rawHeaderString := [];
     param_cookieInputType := js "json";
     param_jsonCookies := [];
     param_rawCookieString := [] |}.

(** The state in which the loop starts on a batch. *)
Definition start (batch : list Item) : ExecState :=
  {| items := batch; returnData := []; fetches := [] |}.



Definition text_of_page : OutRecord :=
  {| out_status := js "success";
     out_message := js "Text extraction finished";
     out_url := js "http://up.test/";
     out_payload := TextPayload (js "Hello") (Some (js "T")) (Some (js "D")) |}.

End Demo.

(** ** Readings of the hooks and of the normalizers' results *)

(** The value the static hook gives the [Cookie] header:
    [Object.entries(cookiesObj).map(([key, value]) => `${key}=${value}`).join('; ')]. *)
Definition cookie_string (c : JsObj) : jstring :=
  join (js "; ") (map (λ '(key, value), key ++ js "=" ++ value) c).

(** A cookie that the raw cookie grammar reads back as it is: no [=] in the
    name, no [;] in either part, no blank before the name or after the
    value. *)
Definition plain_cookie (kv : jstring * jstring) : Prop :=
  (EQUALS ∉ kv.1) ∧ (SEMI ∉ kv.1) ∧ (SEMI ∉ kv.2) ∧
  trimStart kv.1 = kv.1 ∧ trimEnd kv.2 = kv.2.

(** A header key that passed the checks of [parseRawHeaders]. *)
Definition clean_header_key (k : jstring) : Prop :=
  k ≠ [] ∧ (SPACE ∉ k) ∧ (COLON ∉ k) ∧ (QUOTE ∉ k) ∧ (DQUOTE ∉ k).

(** The arguments of the calls of each kind among the calls made on a
    page. *)
Definition added_cookies (setup : list PageAction)
    : list (list (jstring * jstring * jstring)) :=
  omap (λ a, match a with AddCookies cs => Some cs | _ => None end) setup.
Definition viewports (setup : list PageAction) : list (Z * Z) :=
  omap (λ a, match a with SetViewportSize w h => Some (w, h) | _ => None end) setup.
Definition extra_headers (setup : list PageAction) : list JsObj :=
  omap (λ a, match a with SetExtraHTTPHeaders h => Some h | _ => None end) setup.

(** A header written on one line as [Key: Value]. *)
Definition header_line (kv : jstring * jstring) : jstring :=
  kv.1 ++ js ": " ++ kv.2.

(** One spelling at most of [name] among the keys. *)
Definition one_spelling (name : jstring) (h : JsObj) : Prop :=
  ∀ k1 k2, k1 ∈ obj_keys h → k2 ∈ obj_keys h →
    toLowerCase k1 = name → toLowerCase k2 = name → k1 = k2.

(** A header that can be written on one [Key: Value] line and read back:
    a clean key and a value, both trimmed and on one line. *)
Definition one_line_header (kv : jstring * jstring) : Prop :=
  clean_header_key kv.1 ∧ trim kv.1 = kv.1 ∧ trim kv.2 = kv.2 ∧
  (LF ∉ kv.1) ∧ (LF ∉ kv.2).

(** The title and the description a result record reports, when it is a
    text or HTML record. *)
Definition payload_title (pl : Payload) : option jstring :=
  match pl with
  | TextPayload _ title _ | HtmlPayload _ title _ => title
  | LinksPayload _ => None
  end.
Definition payload_description (pl : Payload) : option jstring :=
  match pl with
  | TextPayload _ _ description | HtmlPayload _ _ description => description
  | LinksPayload _ => None
  end.

(** The records the [try] block of an item appends to [returnData], read
    off a run of the block on empty arrays. *)
Definition item_records (host : Host) (itemIndex : nat) : list OutRecord :=
  returnData
    (try_block host itemIndex {| items := []; returnData := []; fetches := [] |}).1.

(** The error the [try] block of an item throws, if it throws, read off a
    run of the block on empty arrays. *)
Definition item_throws (host : Host) (itemIndex : nat) : option JsError :=
  (try_block host itemIndex {| items := []; returnData := []; fetches := [] |}).2.

(** Nothing throws while an item is processed: its proxy list is empty or
    accepted by the constructor, and [run], if it is called, returns. *)
Definition no_failure (host : Host) (itemIndex : nat) : Prop :=
  proxy_error host (item_proxyConfiguration (getNodeParameter host itemIndex)) = None ∧
  ∀ f error, item_request host itemIndex = Some f →
             crawler_run host f ≠ CrawlFailed error.

(** Processing an item throws [error]: the constructor rejects its proxy
    list, or [run] is called and throws. *)
Definition item_failure (host : Host) (itemIndex : nat) (error : JsError) : Prop :=
  proxy_error host (item_proxyConfiguration (getNodeParameter host itemIndex)) =
    Some error ∨
  (proxy_error host (item_proxyConfiguration (getNodeParameter host itemIndex)) = None ∧
   ∃ f, item_request host itemIndex = Some f ∧ crawler_run host f = CrawlFailed error).

(** The links a result record reports, when it is a link record. *)
Definition payload_links (pl : Payload) : option (list jstring) :=
  match pl with
  | LinksPayload links => Some links
  | _ => None
  end.

(** Closed decidable facts are settled by evaluation. *)
Ltac by_compute := apply (bool_decide_unpack _); vm_compute; exact I.

(** * Properties *)

Example parseRawHeaders_colon :
  parseRawHeaders (js "Host: example.com
 'User-Agent' :  Mozilla/5.0 (X11)
:authority: example.com
bad key: x
Accept:text/html") =
  [(js "Host", js "example.com"); (js "User-Agent", js "Mozilla/5.0 (X11)");
   (js "Accept", js "text/html")].
Proof. vm_compute. reflexivity. Qed.

Example parseRawHeaders_alternating :
  parseRawHeaders (js "Host
example.com
Accept
text/html
dangling") =
  [(js "Host", js "example.com"); (js "Accept", js "text/html")].
Proof. vm_compute. reflexivity. Qed.

Example parseCookieString_ex :
  parseCookieString (js "k1=v1; k2=v2") = [(js "k1", js "v1"); (js "k2", js "v2")].
Proof. vm_compute. reflexivity. Qed.

(** Array-index names are listed first, and [__proto__] is not stored. *)
Example parseCookieString_order :
  parseCookieString (js "b=1; 2=x; __proto__=y; 10=w; 1=z; b=3; a=0") =
  [(js "1", js "z"); (js "2", js "x"); (js "10", js "w");
   (js "b", js "3"); (js "a", js "0")].
Proof. vm_compute. reflexivity. Qed.

Example processHeaders_ex :
  let '(sane, σ) := processHeaders 0%nat 1%nat
     (item_store [(js "User-Agent", js "UA"); (js "Cookie", js "a=1; b=2");
                  (js "Accept-Encoding", js "gzip")]
                 [(js "a", js "99"); (js "c", js "3")]) in
  sane = [(js "User-Agent", js "UA")] ∧
  σ 1%nat = [(js "a", js "1"); (js "c", js "3"); (js "b", js "2")] ∧
  σ 0%nat = [(js "User-Agent", js "UA"); (js "Cookie", js "a=1; b=2");
                  (js "Accept-Encoding", js "gzip")].
Proof. vm_compute. auto. Qed.


(** ** Strings *)

Lemma trimStart_ws w s : all_ws w → trimStart (w ++ s) = trimStart s.
Proof. induction 1 as [|c w Hc _ IH]; simpl; [done|]. by rewrite Hc. Qed.

Lemma trimStart_all_ws w : all_ws w → trimStart w = [].
Proof. intros Hw. rewrite <- (app_nil_r w). by rewrite trimStart_ws. Qed.

Lemma trimStart_nonws a c b :
  is_white_space c = false → trimStart (a ++ c :: b) = trimStart a ++ c :: b.
Proof.
  intros Hc. induction a as [|x a IH]; simpl.
  - by rewrite Hc.
  - destruct (is_white_space x); [apply IH | done].
Qed.

Lemma trimStart_cases s :
  (all_ws s ∧ trimStart s = []) ∨
  (∃ w c b, all_ws w ∧ is_white_space c = false ∧ s = w ++ c :: b ∧ trimStart s = c :: b).
Proof.
  induction s as [|x s IH]; simpl.
  - left. split; [constructor | done].
  - destruct (is_white_space x) eqn:Hx.
    + destruct IH as [[Hs ->]|(w & c & b & Hw & Hc & -> & ->)].
      * left. split; [by constructor | done].
      * right. exists (x :: w), c, b. repeat split; [by constructor | done].
    + right. exists [], x, s. repeat split; [constructor | done].
Qed.

Lemma trimStart_idemp s : trimStart (trimStart s) = trimStart s.
Proof.
  destruct (trimStart_cases s) as [[_ ->]|(w & c & b & _ & Hc & _ & ->)]; [done|].
  simpl. by rewrite Hc.
Qed.

Lemma all_ws_reverse w : all_ws w → all_ws (reverse w).
Proof. unfold all_ws. by rewrite Forall_reverse. Qed.

Lemma trimEnd_ws s w : all_ws w → trimEnd (s ++ w) = trimEnd s.
Proof.
  intros Hw. unfold trimEnd. rewrite reverse_app.
  by rewrite trimStart_ws by by apply all_ws_reverse.
Qed.

Lemma trimEnd_nonws a c b :
  is_white_space c = false → trimEnd (a ++ c :: b) = a ++ c :: trimEnd b.
Proof.
  intros Hc. unfold trimEnd.
  rewrite reverse_app, reverse_cons, <- app_assoc. simpl.
  rewrite trimStart_nonws by done.
  rewrite reverse_app, reverse_cons, reverse_involutive.
  by rewrite <- app_assoc.
Qed.

Lemma trimEnd_nil : trimEnd [] = [].
Proof. done. Qed.

Lemma trimEnd_all_ws w : all_ws w → trimEnd w = [].
Proof. intros Hw. by rewrite <- (app_nil_l w), trimEnd_ws. Qed.

Lemma trim_pad w1 s w2 : all_ws w1 → all_ws w2 → trim (w1 ++ s ++ w2) = trim s.
Proof.
  intros H1 H2. unfold trim. rewrite trimStart_ws by done.
  destruct (trimStart_cases s) as [[Hs ->]|(w & c & b & Hw & Hc & -> & ->)].
  - rewrite trimStart_ws, trimStart_all_ws by done. done.
  - rewrite <- app_assoc. rewrite trimStart_ws by done. simpl.
    rewrite Hc. by rewrite (app_comm_cons b w2 c), trimEnd_ws.
Qed.

Lemma trim_nil : trim [] = [].
Proof. done. Qed.

(** Trimming a string that has a non-blank character [c] in it leaves [c]
    and everything between the blanks at both ends. *)
Lemma trim_around a c b :
  is_white_space c = false → trim (a ++ c :: b) = trimStart a ++ c :: trimEnd b.
Proof. intros Hc. unfold trim. by rewrite trimStart_nonws, trimEnd_nonws. Qed.

Lemma trimEnd_idemp s : trimEnd (trimEnd s) = trimEnd s.
Proof. unfold trimEnd. by rewrite reverse_involutive, trimStart_idemp. Qed.

Lemma trimStart_trimEnd s : trimStart (trimEnd s) = trimEnd (trimStart s).
Proof.
  destruct (trimStart_cases s) as [[Hs ->]|(w & c & b & Hw & Hc & -> & ->)].
  - by rewrite trimEnd_all_ws.
  - rewrite (trimEnd_nonws w c b), trimStart_nonws, (trimStart_all_ws w) by done.
    symmetry. by apply (trimEnd_nonws [] c b).
Qed.

Lemma trim_trimStart s : trim (trimStart s) = trim s.
Proof. unfold trim. by rewrite trimStart_idemp. Qed.

Lemma trim_trimEnd s : trim (trimEnd s) = trim s.
Proof. unfold trim. by rewrite trimStart_trimEnd, trimEnd_idemp. Qed.

Lemma trim_idemp s : trim (trim s) = trim s.
Proof. unfold trim at 2. by rewrite trim_trimEnd, trim_trimStart. Qed.

Lemma trimStart_suffix s : ∃ w, all_ws w ∧ s = w ++ trimStart s.
Proof.
  destruct (trimStart_cases s) as [[Hs ->]|(w & c & b & Hw & Hc & -> & ->)].
  - exists s. by rewrite app_nil_r.
  - by exists w.
Qed.

Lemma trimEnd_prefix s : ∃ w, all_ws w ∧ s = trimEnd s ++ w.
Proof.
  destruct (trimStart_suffix (reverse s)) as (w & Hw & Hs).
  exists (reverse w). split; [by apply all_ws_reverse|].
  unfold trimEnd. rewrite <- reverse_app, <- Hs. by rewrite reverse_involutive.
Qed.

Lemma elem_of_trimStart c s : c ∈ trimStart s → c ∈ s.
Proof.
  destruct (trimStart_suffix s) as (w & _ & Hs). intros Hc.
  rewrite Hs. apply elem_of_app. by right.
Qed.

Lemma elem_of_trimEnd c s : c ∈ trimEnd s → c ∈ s.
Proof.
  destruct (trimEnd_prefix s) as (w & _ & Hs). intros Hc.
  rewrite Hs. apply elem_of_app. by left.
Qed.

Lemma elem_of_trim c s : is_white_space c = false → c ∈ trim s ↔ c ∈ s.
Proof.
  intros Hc. split.
  - intros H. by apply elem_of_trimStart, elem_of_trimEnd.
  - intros H. unfold trim.
    destruct (trimStart_suffix s) as (w1 & Hw1 & Hs1).
    destruct (trimEnd_prefix (trimStart s)) as (w2 & Hw2 & Hs2).
    rewrite Hs1, Hs2 in H.
    rewrite !elem_of_app in H. destruct H as [H|[H|H]]; [|done|].
    + unfold all_ws in Hw1. rewrite Forall_forall in Hw1. apply Hw1 in H. congruence.
    + unfold all_ws in Hw2. rewrite Forall_forall in Hw2. apply Hw2 in H. congruence.
Qed.

Lemma split_nonempty sep s : split sep s ≠ [].
Proof.
  destruct s as [|c s]; simpl; [done|].
  destruct (decide (c = sep)); [done|]. by destruct (split sep s).
Qed.

Lemma split_app sep a b :
  split sep (a ++ sep :: b) = split sep a ++ split sep b.
Proof.
  induction a as [|x a IH]; simpl.
  - by rewrite decide_True.
  - destruct (decide (x = sep)); [by rewrite IH|].
    rewrite IH. pose proof (split_nonempty sep a).
    by destruct (split sep a).
Qed.

Lemma split_no_sep sep s : sep ∉ s → split sep s = [s].
Proof.
  induction s as [|x s IH]; simpl; [done|].
  rewrite not_elem_of_cons. intros [Hx Hs].
  rewrite decide_False by done. by rewrite IH.
Qed.

Lemma split_join sep ls :
  Forall (λ l, sep ∉ l) ls → ls ≠ [] → split sep (join [sep] ls) = ls.
Proof.
  induction 1 as [|l ls Hl Hls IH]; [done|]. intros _.
  destruct ls as [|l' ls]; simpl.
  - by apply split_no_sep.
  - rewrite split_app, split_no_sep by done. simpl. f_equal. by apply IH.
Qed.

Lemma elem_of_split c sep s :
  c ≠ sep → c ∈ s ↔ ∃ l, l ∈ split sep s ∧ c ∈ l.
Proof.
  intros Hc. induction s as [|x s IH]; simpl.
  - split; [by intros ?%elem_of_nil|].
    intros (l & ->%list_elem_of_singleton & ?). done.
  - rewrite elem_of_cons, IH. destruct (decide (x = sep)) as [->|Hx].
    + split.
      * intros [?|(l & Hl & Hcl)]; [done|]. exists l. split; [|done].
        by apply elem_of_cons; right.
      * intros (l & [->|Hl]%elem_of_cons & Hcl); [by apply elem_of_nil in Hcl|].
        right. by exists l.
    + pose proof (split_nonempty sep s).
      destruct (split sep s) as [|seg rest]; [done|].
      split.
      * intros [->|(l & [->|Hl]%elem_of_cons & Hcl)].
        -- exists (x :: seg). split; apply elem_of_cons; by left.
        -- exists (x :: seg). split; [by apply elem_of_cons; left|].
           by apply elem_of_cons; right.
        -- exists l. split; [by apply elem_of_cons; right|done].
      * intros (l & [->|Hl]%elem_of_cons & Hcl).
        -- apply elem_of_cons in Hcl as [->|Hcl]; [by left|].
           right. exists seg. split; [by apply elem_of_cons; left|done].
        -- right. exists l. split; [by apply elem_of_cons; right|done].
Qed.

(** ** Index arithmetic against structural cutting *)

Lemma indexOf_cut c s :
  match cut_at_first c s with
  | Some (l, r) => indexOf c s = Z.of_nat (length l) ∧ s = l ++ c :: r ∧ c ∉ l
  | None => indexOf c s = -1 ∧ c ∉ s
  end.
Proof.
  induction s as [|x s IH]; simpl.
  - split; [done | apply not_elem_of_nil].
  - destruct (decide (x = c)) as [->|Hx]; simpl.
    + repeat split; apply not_elem_of_nil.
    + destruct (cut_at_first c s) as [[l r]|]; simpl.
      * destruct IH as (Hi & -> & Hl). rewrite Hi.
        destruct (Z.eqb_spec (Z.of_nat (length l)) (-1)); [lia|].
        repeat split; [lia|]. rewrite not_elem_of_cons. naive_solver.
      * destruct IH as [-> Hs]. simpl. split; [done|].
        rewrite not_elem_of_cons. naive_solver.
Qed.

Lemma cut_at_first_app c l r : c ∉ l → cut_at_first c (l ++ c :: r) = Some (l, r).
Proof.
  induction l as [|x l IH]; simpl.
  - by rewrite decide_True.
  - rewrite not_elem_of_cons. intros [Hx Hl].
    rewrite decide_False by done. by rewrite IH.
Qed.

Lemma cut_at_first_None c s : c ∉ s → cut_at_first c s = None.
Proof.
  induction s as [|x s IH]; simpl; [done|].
  rewrite not_elem_of_cons. intros [Hx Hl].
  rewrite decide_False by done. by rewrite IH.
Qed.

Lemma slice_prefix l c r : slice (l ++ c :: r) 0 (Z.of_nat (length l)) = l.
Proof.
  unfold slice, slice_index. rewrite length_app. simpl.
  destruct (Z.ltb_spec 0 0); [lia|].
  destruct (Z.ltb_spec (Z.of_nat (length l)) 0); [lia|].
  rewrite Z.min_l by lia. rewrite Z.min_l by lia.
  replace (Z.to_nat (Z.of_nat (length l) - 0)) with (length l) by lia.
  change (Z.to_nat 0) with 0%nat. rewrite drop_0. by rewrite take_app_length.
Qed.

Lemma slice_from_suffix l c r :
  slice_from (l ++ c :: r) (Z.of_nat (length l) + 1) = r.
Proof.
  unfold slice_from, slice, slice_index. rewrite length_app. simpl.
  destruct (Z.ltb_spec (Z.of_nat (length l) + 1) 0); [lia|].
  destruct (Z.ltb_spec (Z.of_nat (length l + S (length r))) 0); [lia|].
  rewrite Z.min_l by lia. rewrite Z.min_l by lia.
  replace (Z.to_nat (Z.of_nat (length l) + 1)) with (length (l ++ [c]))
    by (rewrite length_app; simpl; lia).
  rewrite (cons_middle c l r), app_assoc, drop_app_length.
  apply take_ge. lia.
Qed.

Lemma includes_indexOf c s : includes c s = false ↔ indexOf c s = -1.
Proof.
  unfold includes. pose proof (indexOf_cut c s) as H.
  destruct (cut_at_first c s) as [[l r]|].
  - destruct H as (-> & -> & _). split.
    + intros Hn%bool_decide_eq_false. exfalso. apply Hn.
      apply elem_of_app. right. by apply elem_of_cons; left.
    + lia.
  - destruct H as [-> H]. split; [done|]. intros _. by apply bool_decide_eq_false.
Qed.

(** ** Objects *)

Lemma obj_get_Some_key k v o : obj_get k o = Some v → k ∈ obj_keys o.
Proof.
  unfold obj_keys. induction o as [|[k0 v0] o IH]; csimpl; [done|].
  destruct (decide (k0 = k)) as [->|]; intros H.
  - by apply elem_of_cons; left.
  - apply elem_of_cons; right. by apply IH.
Qed.

Lemma obj_get_of_key k o : k ∈ obj_keys o → is_Some (obj_get k o).
Proof.
  unfold obj_keys. induction o as [|[k0 v0] o IH]; csimpl.
  - by intros ?%elem_of_nil.
  - destruct (decide (k0 = k)) as [->|Hne]; [by eexists|].
    intros [?|?]%elem_of_cons; [done | by apply IH].
Qed.

Lemma obj_get_None_key k o : obj_get k o = None ↔ k ∉ obj_keys o.
Proof.
  split.
  - intros H Hin. apply obj_get_of_key in Hin as [v Hv]. congruence.
  - intros H. destruct (obj_get k o) eqn:E; [|done].
    by apply obj_get_Some_key in E.
Qed.

Lemma has_own_true k o : has_own k o = true ↔ k ∈ obj_keys o.
Proof. apply bool_decide_eq_true. Qed.

Lemma has_own_false k o : has_own k o = false ↔ k ∉ obj_keys o.
Proof. apply bool_decide_eq_false. Qed.

Lemma array_index_inj k k' n :
  array_index k = Some n → array_index k' = Some n → k = k'.
Proof.
  unfold array_index. intros H H'.
  destruct (_ && bool_decide (decimal_text (decimal_value k) = k)) eqn:E; [|done].
  destruct (_ && bool_decide (decimal_text (decimal_value k') = k')) eqn:E'; [|done].
  apply andb_true_iff in E as [_ E%bool_decide_eq_true].
  apply andb_true_iff in E' as [_ E'%bool_decide_eq_true].
  injection H as H. injection H' as H'. congruence.
Qed.

Lemma obj_keys_update k v o : obj_keys (obj_update k v o) = obj_keys o.
Proof.
  unfold obj_keys. induction o as [|[k0 v0] o IH]; csimpl; [done|].
  destruct (decide (k0 = k)); csimpl; [done|]. by rewrite IH.
Qed.

Lemma obj_get_update k k' v o :
  k' ∈ obj_keys o →
  obj_get k (obj_update k' v o) = if decide (k' = k) then Some v else obj_get k o.
Proof.
  unfold obj_keys. induction o as [|[k0 v0] o IH]; csimpl.
  - by intros ?%elem_of_nil.
  - intros Hin. destruct (decide (k0 = k')) as [->|Hne]; simpl.
    + destruct (decide (k' = k)); done.
    + apply elem_of_cons in Hin as [?|Hin]; [done|]. rewrite IH by done.
      destruct (decide (k0 = k)) as [->|]; [|done].
      by rewrite decide_False by done.
Qed.

Lemma elem_of_index_insert kv n k v o :
  kv ∈ index_insert n k v o ↔ kv = (k, v) ∨ kv ∈ o.
Proof.
  induction o as [|[k0 v0] o IH]; simpl.
  - rewrite list_elem_of_singleton. split; [by left|]. intros [?|?%elem_of_nil]; done.
  - destruct (array_index k0) as [n0|]; [destruct (n0 <? n)|];
      rewrite ?elem_of_cons, ?IH, ?elem_of_cons; tauto.
Qed.

Lemma elem_of_obj_add kv k v o : kv ∈ obj_add k v o ↔ kv = (k, v) ∨ kv ∈ o.
Proof.
  unfold obj_add. destruct (array_index k) as [n|].
  - apply elem_of_index_insert.
  - rewrite elem_of_app, list_elem_of_singleton. tauto.
Qed.

Lemma obj_keys_index_insert n k v o :
  obj_keys (index_insert n k v o) ≡ₚ k :: obj_keys o.
Proof.
  unfold obj_keys. induction o as [|[k0 v0] o IH]; csimpl; [done|].
  destruct (array_index k0) as [n0|]; [destruct (n0 <? n)|]; csimpl; [|done..].
  rewrite IH. apply Permutation_swap.
Qed.

Lemma obj_keys_add k v o : obj_keys (obj_add k v o) ≡ₚ k :: obj_keys o.
Proof.
  unfold obj_add. destruct (array_index k) as [n|].
  - apply obj_keys_index_insert.
  - unfold obj_keys. rewrite fmap_app. csimpl. by rewrite Permutation_app_comm.
Qed.

Lemma obj_get_index_insert k n k' v o :
  k' ∉ obj_keys o →
  obj_get k (index_insert n k' v o) = if decide (k' = k) then Some v else obj_get k o.
Proof.
  unfold obj_keys. induction o as [|[k0 v0] o IH]; csimpl; [done|].
  rewrite not_elem_of_cons. intros [Hne Hin].
  destruct (array_index k0) as [n0|]; [destruct (n0 <? n)|]; simpl; [|done..].
  rewrite IH by done. destruct (decide (k0 = k)) as [->|]; [|done].
  by rewrite decide_False by done.
Qed.

Lemma obj_get_app k o1 o2 :
  obj_get k (o1 ++ o2) =
  match obj_get k o1 with Some v => Some v | None => obj_get k o2 end.
Proof.
  induction o1 as [|[k0 v0] o1 IH]; simpl; [done|].
  by destruct (decide (k0 = k)).
Qed.

Lemma obj_get_add k k' v o :
  k' ∉ obj_keys o →
  obj_get k (obj_add k' v o) = if decide (k' = k) then Some v else obj_get k o.
Proof.
  intros Hin. unfold obj_add. destruct (array_index k') as [n|].
  - by apply obj_get_index_insert.
  - rewrite obj_get_app. simpl. destruct (decide (k' = k)) as [->|].
    + by destruct (obj_get k o) eqn:E; [apply obj_get_Some_key in E|].
    + by destruct (obj_get k o).
Qed.

(** Defining a property always leaves it with the value given. *)
Lemma obj_get_define k k' v o :
  obj_get k (obj_define k' v o) = if decide (k' = k) then Some v else obj_get k o.
Proof.
  unfold obj_define. destruct (has_own k' o) eqn:E.
  - apply obj_get_update. by apply has_own_true.
  - apply obj_get_add. by apply has_own_false.
Qed.

(** Assigning a property leaves it with the value given, except that
    [__proto__] is not created. *)
Lemma obj_get_set k k' v o :
  obj_get k (obj_set k' v o) =
  if decide (k' = k)
  then if has_own k' o || negb (bool_decide (k' = PROTO)) then Some v else None
  else obj_get k o.
Proof.
  unfold obj_set. destruct (has_own k' o) eqn:E; simpl.
  - apply obj_get_update. by apply has_own_true.
  - apply has_own_false in E. destruct (bool_decide (k' = PROTO)); simpl.
    + destruct (decide (k' = k)) as [<-|]; [|done].
      by apply obj_get_None_key.
    + by apply obj_get_add.
Qed.

Lemma elem_of_obj_keys_set k0 k v o :
  k0 ∈ obj_keys (obj_set k v o) ↔ k0 ∈ obj_keys o ∨ (k0 = k ∧ k ≠ PROTO).
Proof.
  unfold obj_set. destruct (has_own k o) eqn:E.
  - apply has_own_true in E. rewrite obj_keys_update.
    split; [by left|]. by intros [?|[-> _]].
  - case_bool_decide as Hp.
    + split; [by left|]. by intros [?|[_ ?]].
    + rewrite obj_keys_add, elem_of_cons. split.
      * intros [->|?]; [by right | by left].
      * intros [?|[-> _]]; [by right | by left].
Qed.

Lemma elem_of_obj_keys_define k0 k v o :
  k0 ∈ obj_keys (obj_define k v o) ↔ k0 ∈ obj_keys o ∨ k0 = k.
Proof.
  unfold obj_define. destruct (has_own k o) eqn:E.
  - apply has_own_true in E. rewrite obj_keys_update.
    split; [by left|]. by intros [?| ->].
  - rewrite obj_keys_add, elem_of_cons. tauto.
Qed.

Lemma wf_obj_add k v o : k ∉ obj_keys o → wf_obj o → wf_obj (obj_add k v o).
Proof.
  unfold wf_obj. intros Hk Hwf. rewrite obj_keys_add. by apply NoDup_cons.
Qed.

Lemma wf_obj_define k v o : wf_obj o → wf_obj (obj_define k v o).
Proof.
  intros Hwf. unfold obj_define. destruct (has_own k o) eqn:E.
  - unfold wf_obj. by rewrite obj_keys_update.
  - apply wf_obj_add; [by apply has_own_false | done].
Qed.

Lemma wf_obj_set k v o : wf_obj o → wf_obj (obj_set k v o).
Proof.
  intros Hwf. unfold obj_set. destruct (has_own k o) eqn:E.
  - unfold wf_obj. by rewrite obj_keys_update.
  - destruct (bool_decide (k = PROTO)); [done|].
    apply wf_obj_add; [by apply has_own_false | done].
Qed.

Lemma obj_keys_delete k o : obj_keys (obj_delete k o) = filter (λ k', k' ≠ k) (obj_keys o).
Proof.
  unfold obj_keys, obj_delete. induction o as [|[k0 v0] o IH]; [done|].
  rewrite fmap_cons. simpl. destruct (decide (k0 = k)) as [->|Hne].
  - rewrite (filter_cons_False (λ k', k' ≠ k)) by naive_solver.
    by rewrite (filter_cons_False (λ kv : jstring * jstring, kv.1 ≠ k))
      by (simpl; naive_solver).
  - rewrite (filter_cons_True (λ k', k' ≠ k)) by done.
    rewrite (filter_cons_True (λ kv : jstring * jstring, kv.1 ≠ k)) by done.
    rewrite fmap_cons. simpl. f_equal. exact IH.
Qed.

Lemma obj_delete_absent k o : k ∉ obj_keys (obj_delete k o).
Proof. rewrite obj_keys_delete. by intros [H _]%list_elem_of_filter. Qed.

Lemma obj_get_delete k k' o :
  obj_get k (obj_delete k' o) = if decide (k' = k) then None else obj_get k o.
Proof.
  unfold obj_delete. induction o as [|[k0 v0] o IH].
  - simpl. by destruct (decide (k' = k)).
  - destruct (decide (k0 = k')) as [->|Hne].
    + rewrite (filter_cons_False (λ kv : jstring * jstring, kv.1 ≠ k'))
        by (simpl; naive_solver).
      etrans; [exact IH|]. simpl. by destruct (decide (k' = k)).
    + rewrite (filter_cons_True (λ kv : jstring * jstring, kv.1 ≠ k')) by done.
      simpl. destruct (decide (k0 = k)) as [->|].
      * by rewrite decide_False by done.
      * exact IH.
Qed.

Lemma wf_obj_delete k o : wf_obj o → wf_obj (obj_delete k o).
Proof. unfold wf_obj. rewrite obj_keys_delete. apply NoDup_filter. Qed.

Lemma last_binding_snoc name es kv :
  last_binding name (es ++ [kv]) =
  if decide (kv.1 = name) then Some kv.2 else last_binding name es.
Proof.
  unfold last_binding. rewrite filter_app, filter_cons, filter_nil.
  destruct (decide (kv.1 = name)).
  - by rewrite last_snoc.
  - by rewrite app_nil_r.
Qed.

Lemma proto_fold_put es o :
  PROTO ∈ obj_keys (fold_left put es o) ↔ PROTO ∈ obj_keys o.
Proof.
  revert o. induction es as [|kv es IH]; intros o; [done|].
  simpl. rewrite IH. unfold put. rewrite elem_of_obj_keys_set.
  split; [|by left]. intros [?|[Heq Hne]]; [done|]. by destruct Hne.
Qed.

(** Looking a key up in an object after successive assignments finds the
    last value assigned to it; [__proto__] is found only if the object had
    it before. *)
Lemma obj_get_fold_put name es o :
  obj_get name (fold_left put es o) =
  if decide (name = PROTO ∧ PROTO ∉ obj_keys o) then None
  else match last_binding name es with
       | Some v => Some v
       | None => obj_get name o
       end.
Proof.
  induction es as [|kv es IH] using rev_ind.
  - simpl. destruct (decide _) as [[-> Hp]|]; [|done]. by apply obj_get_None_key.
  - rewrite fold_left_app. simpl. unfold put at 1.
    rewrite obj_get_set, last_binding_snoc, IH.
    destruct (decide (kv.1 = name)) as [Hkv|]; [|done].
    destruct (decide (name = PROTO ∧ PROTO ∉ obj_keys o)) as [[-> Hp]|Hn].
    + rewrite Hkv, bool_decide_eq_true_2 by done.
      assert (has_own PROTO (fold_left put es o) = false) as ->; [|done].
      apply has_own_false. by rewrite proto_fold_put.
    + destruct (decide (name = PROTO)) as [->|Hne].
      * assert (has_own kv.1 (fold_left put es o) = true) as ->; [|done].
        rewrite Hkv. apply has_own_true, proto_fold_put.
        destruct (decide (PROTO ∈ obj_keys o)); [done|]. by destruct Hn.
      * rewrite (bool_decide_eq_false_2 (kv.1 = PROTO)) by congruence.
        by rewrite orb_true_r.
Qed.


Lemma proto_mapping_of es : PROTO ∉ obj_keys (mapping_of es).
Proof. unfold mapping_of. rewrite proto_fold_put. apply not_elem_of_nil. Qed.

Lemma wf_obj_fold_put es o : wf_obj o → wf_obj (fold_left put es o).
Proof.
  revert o. induction es as [|kv es IH]; intros o Ho; [done|].
  simpl. apply IH. by apply wf_obj_set.
Qed.

(** The order of the properties is kept by every write. *)
Lemma js_ordered_update k v o : js_ordered o → js_ordered (obj_update k v o).
Proof.
  induction o as [|[k0 v0] o IH]; simpl; [done|]. intros [H0 Ho].
  destruct (decide (k0 = k)); simpl; [done|].
  rewrite obj_keys_update. split; [done | by apply IH].
Qed.

Lemma js_ordered_index_insert n k v o :
  array_index k = Some n → k ∉ obj_keys o →
  js_ordered o → js_ordered (index_insert n k v o).
Proof.
  intros Hk. unfold obj_keys.
  induction o as [|[k0 v0] o IH]; csimpl.
  - intros _ _. rewrite Hk. split; [|done]. by intros k' ?%elem_of_nil.
  - rewrite not_elem_of_cons. intros [Hne Hin] [H0 Ho].
    destruct (array_index k0) as [n0|] eqn:E0.
    + destruct (Z.ltb_spec n0 n) as [Hlt|Hge]; simpl.
      * rewrite E0. split; [|by apply IH].
        intros k' Hk' n' Hn'. fold (obj_keys (index_insert n k v o)) in Hk'.
        rewrite obj_keys_index_insert, elem_of_cons in Hk'.
        destruct Hk' as [->|Hk']; [|by eapply H0].
        rewrite Hk in Hn'. injection Hn' as <-. done.
      * rewrite Hk, E0. split; [|done].
        intros k' [->|Hk']%elem_of_cons n' Hn'.
        -- rewrite E0 in Hn'. injection Hn' as <-.
           destruct (decide (n = n0)) as [->|]; [|lia].
           destruct Hne. by eapply array_index_inj.
        -- specialize (H0 k' Hk' n' Hn'). lia.
    + simpl. rewrite Hk, E0. split; [|done].
      intros k' [->|Hk']%elem_of_cons n' Hn'; [congruence|].
      specialize (H0 k' Hk'). congruence.
Qed.

Lemma js_ordered_snoc k v o :
  array_index k = None → js_ordered o → js_ordered (o ++ [(k, v)]).
Proof.
  intros Hk. induction o as [|[k0 v0] o IH]; simpl.
  - intros _. rewrite Hk. split; [|done]. by intros k' ?%elem_of_nil.
  - intros [H0 Ho]. split; [|by apply IH].
    unfold obj_keys. rewrite fmap_app. csimpl.
    destruct (array_index k0) as [n0|].
    + intros k' [Hk'|Hk']%elem_of_app n' Hn'; [by eapply H0|].
      apply list_elem_of_singleton in Hk' as ->. congruence.
    + intros k' [Hk'|Hk']%elem_of_app; [by apply H0|].
      by apply list_elem_of_singleton in Hk' as ->.
Qed.

Lemma js_ordered_add k v o :
  k ∉ obj_keys o → js_ordered o → js_ordered (obj_add k v o).
Proof.
  intros Hk Ho. unfold obj_add. destruct (array_index k) as [n|] eqn:E.
  - by apply js_ordered_index_insert.
  - by apply js_ordered_snoc.
Qed.

Lemma js_ordered_set k v o : js_ordered o → js_ordered (obj_set k v o).
Proof.
  intros Ho. unfold obj_set. destruct (has_own k o) eqn:E.
  - by apply js_ordered_update.
  - destruct (bool_decide (k = PROTO)); [done|].
    apply js_ordered_add; [by apply has_own_false | done].
Qed.

Lemma js_ordered_fold_put es o : js_ordered o → js_ordered (fold_left put es o).
Proof.
  revert o. induction es as [|kv es IH]; intros o Ho; [done|].
  simpl. apply IH. by apply js_ordered_set.
Qed.

Lemma js_ordered_mapping_of es : js_ordered (mapping_of es).
Proof. by apply js_ordered_fold_put. Qed.

Lemma js_ordered_app_l o1 o2 : js_ordered (o1 ++ o2) → js_ordered o1.
Proof.
  induction o1 as [|[k0 v0] o1 IH]; simpl; [done|]. intros [H0 Ho].
  split; [|by apply IH]. unfold obj_keys in *. rewrite fmap_app in H0.
  destruct (array_index k0) as [n0|].
  - intros k' Hk'. apply H0, elem_of_app. by left.
  - intros k' Hk'. apply H0, elem_of_app. by left.
Qed.

(** A new property that the order puts last. *)
Lemma obj_add_last k v o : js_ordered (o ++ [(k, v)]) → obj_add k v o = o ++ [(k, v)].
Proof.
  unfold obj_add. destruct (array_index k) as [n|] eqn:E; [|done].
  induction o as [|[k0 v0] o IH]; simpl; [done|]. intros [H0 Ho].
  unfold obj_keys in H0. rewrite fmap_app in H0. csimpl in H0.
  assert (k ∈ o.*1 ++ [k]) as Hin by (apply elem_of_app; right; by left).
  destruct (array_index k0) as [n0|].
  - specialize (H0 k Hin n E). destruct (Z.ltb_spec n0 n); [|lia].
    by rewrite IH.
  - specialize (H0 k Hin). congruence.
Qed.

(** An object is what assigning its properties in turn to [{}] builds. *)
Lemma mapping_of_ordered c :
  wf_obj c → PROTO ∉ obj_keys c → js_ordered c → mapping_of c = c.
Proof.
  unfold mapping_of, wf_obj, obj_keys.
  induction c as [|[k v] c IH] using rev_ind; [done|].
  rewrite fmap_app, NoDup_app, not_elem_of_app. csimpl.
  intros (Hnd & Hdisj & _) [Hp Hpk] Hord.
  rewrite fold_left_app. simpl. rewrite IH; [|done..|by eapply js_ordered_app_l].
  unfold put, obj_set. simpl.
  assert (k ∉ obj_keys c) as Hk.
  { intros Hin. apply (Hdisj k Hin). by left. }
  rewrite (proj2 (has_own_false k c)) by done.
  rewrite bool_decide_eq_false_2.
  - by apply obj_add_last.
  - intros ->. apply Hpk. by left.
Qed.

(** A loop that assigns at some rounds and skips the others builds the
    mapping of the pairs it assigned. *)
Lemma fold_left_omap {A} (step : JsObj → A → JsObj)
    (entry : A → option (jstring * jstring)) (l : list A) (o : JsObj) :
  (∀ m x, step m x = match entry x with Some kv => put m kv | None => m end) →
  fold_left step l o = fold_left put (omap entry l) o.
Proof.
  intros Hstep. revert o. induction l as [|x l IH]; intros o; [done|].
  simpl. rewrite Hstep. destruct (entry x); simpl; apply IH.
Qed.

(** ** Cookie normalizer *)

Lemma cookie_reducer_cut acc seg :
  cookie_reducer acc seg =
  match cut_at_first EQUALS seg with Some kv => put acc kv | None => acc end.
Proof.
  unfold cookie_reducer. pose proof (indexOf_cut EQUALS seg) as H.
  destruct (cut_at_first EQUALS seg) as [[l r]|].
  - destruct H as (Hi & -> & _). rewrite Hi.
    destruct (Z.eqb_spec (Z.of_nat (length l)) (-1)); [lia|].
    by rewrite slice_prefix, slice_from_suffix.
  - destruct H as [-> _]. done.
Qed.

Lemma truthy_nonempty (s : jstring) : truthy s = true ↔ s ≠ [].
Proof. by destruct s. Qed.

Lemma parseCookieString_spec raw :
  parseCookieString raw = mapping_of (spec_cookie_entries raw).
Proof.
  unfold parseCookieString, mapping_of, spec_cookie_entries.
  rewrite (fold_left_omap cookie_reducer (cut_at_first EQUALS))
    by apply cookie_reducer_cut.
  do 2 f_equal. apply list_filter_iff, truthy_nonempty.
Qed.

Lemma cookiesFromRawString_parse raw :
  cookiesFromRawString raw = parseCookieString raw.
Proof. unfold cookiesFromRawString. by destruct raw. Qed.

Lemma all_ws_not_elem sep w : is_white_space sep = false → all_ws w → sep ∉ w.
Proof.
  intros Hsep Hw Hin. unfold all_ws in Hw. rewrite Forall_forall in Hw.
  apply Hw in Hin. congruence.
Qed.



Lemma wf_parseCookieString raw : wf_obj (parseCookieString raw).
Proof.
  rewrite parseCookieString_spec. apply wf_obj_fold_put. apply NoDup_nil_2.
Qed.



(** ** Header normalizer, colon form *)

Lemma trimStart_head s :
  (∀ c, head s = Some c → is_white_space c = false) → trimStart s = s.
Proof. destruct s as [|c s]; simpl; [done|]. intros H. by rewrite H. Qed.







Lemma strip_quotes_unquote s : spec_unquote s = strip_quotes s.
Proof.
  unfold spec_unquote, strip_quotes, is_quote. apply list_filter_iff.
  intros c. tauto.
Qed.

(** The loop body of strategy 1 against the reference reading of a line. *)
Lemma colon_step_entry m line :
  colon_step m line =
  match spec_colon_entry line with Some kv => put m kv | None => m end.
Proof.
  unfold colon_step, spec_colon_entry. pose proof (indexOf_cut COLON line) as H.
  destruct (cut_at_first COLON line) as [[a b]|]; simpl.
  - rewrite strip_quotes_unquote. destruct H as (Hi & -> & _). rewrite Hi.
    destruct (Z.eqb_spec (Z.of_nat (length a)) (-1)); [lia|].
    rewrite slice_prefix, slice_from_suffix. unfold spec_valid_key.
    destruct (includes SPACE (strip_quotes (trim a))); simpl; [done|].
    destruct (strip_quotes (trim a)) as [|c key]; simpl; [done|].
    by destruct (bool_decide (c = COLON)).
  - destruct H as [-> _]. done.
Qed.

Lemma spec_colon_entry_trim line :
  spec_colon_entry (trim line) = spec_colon_entry line.
Proof.
  unfold spec_colon_entry. pose proof (indexOf_cut COLON line) as H.
  destruct (cut_at_first COLON line) as [[a b]|] eqn:E; simpl.
  - destruct H as (_ & -> & Ha).
    rewrite trim_around by done.
    rewrite cut_at_first_app by (intros ?%elem_of_trimStart; done). simpl.
    by rewrite trim_trimStart, trim_trimEnd.
  - destruct H as [_ H]. rewrite cut_at_first_None; [done|].
    intros Hin. rewrite elem_of_trim in Hin by done. done.
Qed.

Lemma spec_colon_entry_blank line : trim line = [] → spec_colon_entry line = None.
Proof.
  intros H. rewrite <- spec_colon_entry_trim, H. done.
Qed.

Lemma fold_colon_step_lines L o :
  fold_left colon_step (filter (λ l, truthy l = true) (map trim L)) o =
  fold_left put (omap spec_colon_entry L) o.
Proof.
  revert o. induction L as [|l L IH]; intros o; [done|].
  simpl. destruct (trim l) as [|c t] eqn:E.
  - rewrite filter_cons_False by done.
    rewrite spec_colon_entry_blank by done. apply IH.
  - rewrite filter_cons_True by done. simpl.
    rewrite colon_step_entry, <- E, spec_colon_entry_trim.
    destruct (spec_colon_entry l); simpl; apply IH.
Qed.

Lemma existsb_elem_of {A} (p : A → bool) l :
  existsb p l = true ↔ ∃ x, x ∈ l ∧ p x = true.
Proof.
  induction l as [|y l IH]; simpl.
  - split; [done|]. by intros (x & ?%elem_of_nil & _).
  - rewrite orb_true_iff, IH. split.
    + intros [H|(x & Hx & Hp)]; [exists y | exists x]; split; try done;
        apply elem_of_cons; auto.
    + intros (x & [->|Hx]%elem_of_cons & Hp); [by left | right; by exists x].
Qed.

Lemma includes_true c s : includes c s = true ↔ c ∈ s.
Proof. unfold includes. apply bool_decide_eq_true. Qed.

Lemma hasColons_raw raw :
  existsb (includes COLON) (header_lines raw) = includes COLON raw.
Proof.
  apply eq_true_iff_eq. rewrite existsb_elem_of, includes_true.
  rewrite (elem_of_split COLON LF raw) by done. unfold header_lines. split.
  - intros (l & [_ (l0 & -> & Hl0)%list_elem_of_fmap]%list_elem_of_filter & Hc).
    exists l0. split; [done|]. apply includes_true in Hc.
    by rewrite elem_of_trim in Hc by done.
  - intros (l0 & Hl0 & Hc). exists (trim l0).
    assert (COLON ∈ trim l0) as Ht by by rewrite elem_of_trim by done.
    split; [|by apply includes_true].
    apply list_elem_of_filter. split.
    + by destruct (trim l0); [apply elem_of_nil in Ht|].
    + apply list_elem_of_fmap. by exists l0.
Qed.

(** When some line has a colon, [parseRawHeaders] is the colon form of the
    specification applied to the lines of the input as they stand. *)
Lemma parseRawHeaders_colon_refines raw :
  includes COLON raw = true →
  parseRawHeaders raw = mapping_of (spec_colon_entries raw).
Proof.
  intros Hc. unfold parseRawHeaders. rewrite hasColons_raw, Hc.
  unfold header_lines, spec_colon_entries, mapping_of. apply fold_colon_step_lines.
Qed.

Lemma all_ws_not_colon w : all_ws w → COLON ∉ w.
Proof. by apply all_ws_not_elem. Qed.







Lemma includes_join_lines c ls :
  c ≠ LF → Forall (λ l, LF ∉ l) ls → ls ≠ [] →
  includes c (join [LF] ls) = true ↔ ∃ l, l ∈ ls ∧ c ∈ l.
Proof.
  intros Hc Hls Hne. rewrite includes_true, (elem_of_split c LF) by done.
  by rewrite split_join.
Qed.






(** ** Header normalizer, alternating form *)

(** The indexed loop of strategy 2 visits the lines from [i] on two by
    two. *)
Lemma alternating_loop_pairs lines i headers :
  alternating_loop lines i headers =
  fold_left pair_step (spec_pairs (drop i lines)) headers.
Proof.
  funelim (alternating_loop lines i headers).
  - rewrite drop_ge by lia. done.
  - destruct (lookup_lt_is_Some_2 lines i) as [x Hx]; [done|].
    rewrite (drop_S _ _ _ Hx), drop_ge by lia. done.
  - destruct (lookup_lt_is_Some_2 lines i) as [li Hi]; [done|].
    destruct (lookup_lt_is_Some_2 lines (i + 1)) as [lv Hv]; [lia|].
    rewrite Hi, Hv, H. rewrite (drop_S _ _ _ Hi).
    replace (S i) with (i + 1)%nat by lia. rewrite (drop_S _ _ _ Hv).
    replace (S (i + 1)) with (i + 2)%nat by lia. done.
Qed.

Lemma fold_left_omap_Forall {A} (step : JsObj → A → JsObj)
    (entry : A → option (jstring * jstring)) (l : list A) (o : JsObj) :
  Forall (λ x, ∀ m,
    step m x = match entry x with Some kv => put m kv | None => m end) l →
  fold_left step l o = fold_left put (omap entry l) o.
Proof.
  intros Hl. revert o. induction Hl as [|x l Hx _ IH]; intros o; [done|].
  csimpl. rewrite Hx. destruct (entry x); simpl; apply IH.
Qed.

Lemma pair_step_entry m kv :
  trim kv.1 = kv.1 → trim kv.2 = kv.2 →
  pair_step m kv =
  match spec_alternating_entry kv with Some kv' => put m kv' | None => m end.
Proof.
  destruct kv as [k v]. simpl. intros Hk Hv.
  unfold pair_step, alternating_step, spec_alternating_entry, spec_valid_key.
  simpl. rewrite Hk, Hv, strip_quotes_unquote.
  destruct (includes SPACE (strip_quotes k)); simpl; [done|].
  destruct (strip_quotes k) as [|c key]; simpl; [done|].
  by destruct (bool_decide (c = COLON)).
Qed.

Lemma elem_of_spec_pairs kv L : kv ∈ spec_pairs L → kv.1 ∈ L ∧ kv.2 ∈ L.
Proof.
  remember (length L) as n eqn:Hn. revert L Hn kv.
  induction n as [n IH] using lt_wf_ind. intros L Hn kv.
  destruct L as [|k [|v L]]; simpl; [by intros ?%elem_of_nil..|].
  intros [->|H]%elem_of_cons; simpl.
  - split; [by apply elem_of_cons; left|].
    apply elem_of_cons; right. by apply elem_of_cons; left.
  - eapply (IH (length L)) in H as [H1 H2]; [|simpl in Hn; lia|done].
    split; do 2 (apply elem_of_cons; right); done.
Qed.

Lemma header_lines_trimmed raw l : l ∈ header_lines raw → trim l = l.
Proof.
  unfold header_lines.
  intros [_ (l0 & -> & _)%list_elem_of_fmap]%list_elem_of_filter.
  apply trim_idemp.
Qed.


Lemma header_lines_spec raw : header_lines raw = spec_lines raw.
Proof. unfold header_lines, spec_lines. apply list_filter_iff, truthy_nonempty. Qed.

Lemma parseRawHeaders_alternating_refines raw :
  COLON ∉ raw → parseRawHeaders raw = mapping_of (spec_alternating_entries raw).
Proof.
  intros Hc. unfold parseRawHeaders. rewrite hasColons_raw.
  unfold includes. rewrite bool_decide_eq_false_2 by done.
  rewrite alternating_loop_pairs, drop_0.
  unfold spec_alternating_entries, mapping_of. rewrite <- header_lines_spec.
  apply fold_left_omap_Forall, Forall_forall. intros kv Hkv m.
  apply elem_of_spec_pairs in Hkv as [H1 H2].
  apply pair_step_entry; by eapply header_lines_trimmed.
Qed.



(** ** Header/cookie reconciler *)

Lemma array_find_Some {A} (p : A → bool) l x :
  array_find p l = Some x → x ∈ l ∧ p x = true.
Proof.
  induction l as [|y l IH]; simpl; [done|].
  destruct (p y) eqn:E.
  - intros [= ->]. split; [by apply elem_of_cons; left | done].
  - intros [H1 H2]%IH. split; [by apply elem_of_cons; right | done].
Qed.

Lemma array_find_None {A} (p : A → bool) l :
  array_find p l = None ↔ ∀ x, x ∈ l → p x = false.
Proof.
  induction l as [|y l IH]; simpl.
  - split; [|done]. by intros _ x ?%elem_of_nil.
  - destruct (p y) eqn:E.
    + split; [done|]. intros H. specialize (H y). rewrite E in H.
      discriminate H. by apply elem_of_cons; left.
    + rewrite IH. split.
      * intros H x [->|Hx]%elem_of_cons; [done | by apply H].
      * intros H x Hx. apply H. by apply elem_of_cons; right.
Qed.

Lemma lower_is_truthy name k :
  name ≠ [] → lower_is name k = true → truthy k = true.
Proof.
  unfold lower_is. intros Hn Hk%bool_decide_eq_true. destruct k; [|done].
  by destruct name.
Qed.

Lemma no_key_named_find name h :
  array_find (lower_is name) (obj_keys h) = None ↔ no_key_named name h.
Proof.
  rewrite array_find_None. unfold no_key_named, lower_is.
  by setoid_rewrite bool_decide_eq_false.
Qed.

(** What [processHeaders] computes, in one piece. *)
Lemma processHeaders_eq headers cookies σ :
  processHeaders headers cookies σ =
  match array_find (lower_is (js "cookie")) (obj_keys (σ headers)) with
  | Some k =>
      match obj_get k (σ headers) with
      | Some raw =>
          (drop_first_named (js "accept-encoding") (obj_delete k (σ headers)),
           <[cookies := obj_assign (σ cookies) (parseCookieString raw)]> σ)
      | None => (drop_first_named (js "accept-encoding") (σ headers), σ)
      end
  | None => (drop_first_named (js "accept-encoding") (σ headers), σ)
  end.
Proof.
  unfold processHeaders, drop_first_named, mbind, Eff_bind, mret, Eff_ret, deref, modify.
  destruct (array_find (lower_is (js "cookie")) (obj_keys (σ headers)))
    as [k|] eqn:Ek.
  - apply array_find_Some in Ek as [_ Hk].
    rewrite (lower_is_truthy (js "cookie") k) by done.
    destruct (obj_get k (σ headers)) as [raw|]; cbn beta iota.
    + destruct (array_find (lower_is (js "accept-encoding")) (obj_keys (obj_delete k (σ headers)))) as [e|] eqn:Ee;
        [|reflexivity].
      apply array_find_Some in Ee as [_ He].
      by rewrite (lower_is_truthy (js "accept-encoding") e).
    + destruct (array_find (lower_is (js "accept-encoding")) (obj_keys (σ headers))) as [e|] eqn:Ee; [|reflexivity].
      apply array_find_Some in Ee as [_ He].
      by rewrite (lower_is_truthy (js "accept-encoding") e).
  - cbn beta iota.
    destruct (array_find (lower_is (js "accept-encoding")) (obj_keys (σ headers))) as [e|] eqn:Ee; [|reflexivity].
    apply array_find_Some in Ee as [_ He].
    by rewrite (lower_is_truthy (js "accept-encoding") e).
Qed.

Lemma last_binding_wf name o : wf_obj o → last_binding name o = obj_get name o.
Proof.
  unfold wf_obj, obj_keys, last_binding.
  induction o as [|[k0 v0] o IH]; [done|].
  rewrite fmap_cons, NoDup_cons. intros [Hk0 Hnd].
  cbn [obj_get fst]. destruct (decide (k0 = name)) as [->|Hne].
  - rewrite (filter_cons_True (λ kv : jstring * jstring, kv.1 = name)) by done.
    assert (filter (λ kv : jstring * jstring, kv.1 = name) o = []) as ->; [|done].
    apply elem_of_nil_inv. intros [k v] [Heq Hin]%list_elem_of_filter.
    simpl in Heq. subst k. apply Hk0. apply list_elem_of_fmap. by exists (name, v).
  - rewrite (filter_cons_False (λ kv : jstring * jstring, kv.1 = name)) by done.
    by apply IH.
Qed.

Lemma proto_parseCookieString raw : PROTO ∉ obj_keys (parseCookieString raw).
Proof. rewrite parseCookieString_spec. apply proto_mapping_of. Qed.

(** [Object.assign]: the source wins on every key it has; a source built
    by assignments has no [__proto__] to pass on. *)
Lemma obj_get_assign name target source :
  wf_obj source → PROTO ∉ obj_keys source →
  obj_get name (obj_assign target source) =
  match obj_get name source with
  | Some v => Some v
  | None => obj_get name target
  end.
Proof.
  intros Hwf Hp. unfold obj_assign.
  change (λ (t : JsObj) (kv : jstring * jstring), obj_set kv.1 kv.2 t) with put.
  rewrite obj_get_fold_put, last_binding_wf by done.
  destruct (decide _) as [[-> Ht]|]; [|done].
  apply obj_get_None_key in Hp, Ht. by rewrite Hp, Ht.
Qed.

(** A spread: the source wins on every key it has. *)
Lemma obj_get_spread name target source :
  wf_obj source →
  obj_get name (obj_spread target source) =
  match obj_get name source with
  | Some v => Some v
  | None => obj_get name target
  end.
Proof.
  intros Hwf. rewrite <- (last_binding_wf name source) by done. clear Hwf.
  unfold obj_spread. induction source as [|kv es IH] using rev_ind.
  - simpl. done.
  - rewrite fold_left_app. simpl. rewrite obj_get_define, last_binding_snoc, IH.
    by destruct (decide (kv.1 = name)).
Qed.

Lemma wf_obj_spread target source : wf_obj target → wf_obj (obj_spread target source).
Proof.
  unfold obj_spread. revert target.
  induction source as [|kv es IH]; intros target Ht; [done|].
  simpl. apply IH. by apply wf_obj_define.
Qed.

Lemma obj_keys_drop_first_named name h k :
  k ∈ obj_keys (drop_first_named name h) → k ∈ obj_keys h.
Proof.
  unfold drop_first_named. destruct (array_find _ _); [|done].
  rewrite obj_keys_delete. by intros [_ ?]%list_elem_of_filter.
Qed.

Lemma processHeaders_headers headers cookies σ :
  (processHeaders headers cookies σ).1 =
  drop_first_named (js "accept-encoding")
    (drop_first_named (js "cookie") (σ headers)).
Proof.
  rewrite processHeaders_eq.
  destruct (array_find (lower_is (js "cookie")) (obj_keys (σ headers)))
    as [k|] eqn:Ek.
  - assert (drop_first_named (js "cookie") (σ headers) = obj_delete k (σ headers))
      as -> by (unfold drop_first_named; by rewrite Ek).
    apply array_find_Some in Ek as [Hk _].
    by destruct (obj_get_of_key k (σ headers) Hk) as [raw ->].
  - assert (drop_first_named (js "cookie") (σ headers) = σ headers)
      as -> by (unfold drop_first_named; by rewrite Ek).
    done.
Qed.

(** Entries under any other name pass through with their key and value. *)
Lemma processHeaders_keeps_others headers cookies σ name :
  toLowerCase name ≠ js "cookie" → toLowerCase name ≠ js "accept-encoding" →
  obj_get name (processHeaders headers cookies σ).1 = obj_get name (σ headers).
Proof.
  intros Hc He. rewrite processHeaders_headers.
  assert (∀ target h, toLowerCase name ≠ target →
    obj_get name (drop_first_named target h) = obj_get name h) as Hdrop.
  { intros target h Hne. unfold drop_first_named.
    destruct (array_find (lower_is target) (obj_keys h)) as [k|] eqn:Ek; [|done].
    apply array_find_Some in Ek as [_ Hk%bool_decide_eq_true].
    rewrite obj_get_delete. destruct (decide (k = name)); [congruence | done]. }
  by rewrite !Hdrop.
Qed.

Lemma array_find_is_Some {A} (p : A → bool) l x :
  x ∈ l → p x = true → is_Some (array_find p l).
Proof.
  intros Hx Hp. destruct (array_find p l) eqn:E; [by eexists|].
  rewrite array_find_None in E. rewrite (E x Hx) in Hp. discriminate Hp.
Qed.

(** C1 (amended). When some key of the header mapping is [cookie] up to
    case, the value of the first such key [k] is parsed with the raw cookie
    grammar and the resulting mapping is assigned onto the cookie mapping:
    a name in the parsed mapping gets the parsed value, also when the cookie
    mapping already had it, every other entry of the cookie mapping is
    kept, and [k] is absent from the returned headers.  The parsed mapping
    never has the name [__proto__], so a header [Cookie: __proto__=x] leaves
    the cookie mapping as it was.  The explicit mapping [{a: 99}] with the
    header [Cookie: a=1] ends with [a: 1]. *)
Theorem cookie_header_merged :
  (∀ σ headers cookies,
     (∃ k0, k0 ∈ obj_keys (σ headers) ∧ toLowerCase k0 = js "cookie") →
     ∃ k raw,
       array_find (lower_is (js "cookie")) (obj_keys (σ headers)) = Some k ∧
       toLowerCase k = js "cookie" ∧
       obj_get k (σ headers) = Some raw ∧
       (∀ name,
          obj_get name ((processHeaders headers cookies σ).2 cookies) =
          match obj_get name (parseCookieString raw) with
          | Some v => Some v
          | None => obj_get name (σ cookies)
          end) ∧
       obj_get PROTO (parseCookieString raw) = None ∧
       k ∉ obj_keys (processHeaders headers cookies σ).1) ∧
  (processHeaders jsonHeaders_ref cookiesObj_ref
     (item_store [(js "Cookie", js "__proto__=x")] [(js "a", js "99")])).2
    cookiesObj_ref = [(js "a", js "99")] ∧
  obj_get (js "a")
    ((processHeaders jsonHeaders_ref cookiesObj_ref
        (item_store [(js "Cookie", js "a=1")] [(js "a", js "99")])).2
       cookiesObj_ref) = Some (js "1").
Proof.
  split_and!; [|by vm_compute..].
  intros σ headers cookies (k0 & Hk0 & Hlow).
  destruct (array_find_is_Some (lower_is (js "cookie")) _ k0 Hk0) as [k Hk];
    [by apply bool_decide_eq_true|].
  pose proof (array_find_Some _ _ _ Hk) as [Hin Hlowk%bool_decide_eq_true].
  destruct (obj_get_of_key k (σ headers) Hin) as [raw Hraw].
  exists k, raw. split_and!; [done..| | |].
  - intros name. rewrite processHeaders_eq, Hk, Hraw. simpl.
    rewrite fn_lookup_insert.
    apply obj_get_assign; [apply wf_parseCookieString | apply proto_parseCookieString].
  - apply obj_get_None_key, proto_parseCookieString.
  - rewrite processHeaders_headers. intros Hin'%obj_keys_drop_first_named.
    unfold drop_first_named in Hin'. rewrite Hk in Hin'.
    by apply obj_delete_absent in Hin'.
Qed.

Lemma cookie_header_merged_witness :
  ∃ k raw,
    array_find (lower_is (js "cookie"))
      (obj_keys [(js "Accept", js "*/*"); (js "Cookie", js "a=1; b=2")]) = Some k ∧
    toLowerCase k = js "cookie" ∧
    obj_get k [(js "Accept", js "*/*"); (js "Cookie", js "a=1; b=2")] = Some raw ∧
    (∀ name,
       obj_get name
         ((processHeaders jsonHeaders_ref cookiesObj_ref
             (item_store [(js "Accept", js "*/*"); (js "Cookie", js "a=1; b=2")]
                [(js "a", js "99")])).2
            cookiesObj_ref) =
       match obj_get name (parseCookieString raw) with
       | Some v => Some v
       | None => obj_get name [(js "a", js "99")]
       end) ∧
    obj_get PROTO (parseCookieString raw) = None ∧
    k ∉
      obj_keys (processHeaders jsonHeaders_ref cookiesObj_ref
        (item_store [(js "Accept", js "*/*"); (js "Cookie", js "a=1; b=2")]
           [(js "a", js "99")])).1.
Proof.
  apply (proj1 cookie_header_merged
           (item_store [(js "Accept", js "*/*"); (js "Cookie", js "a=1; b=2")]
              [(js "a", js "99")])
           jsonHeaders_ref cookiesObj_ref).
  exists (js "Cookie"). split; [by_compute | reflexivity].
Defined.

(** Against C1 as stated: the explicit cookie [a = 99] does not survive a
    [Cookie: a=1] header. *)
Lemma explicit_cookie_overwritten :
  ¬ explicit_cookies_win
      (item_store [(js "Cookie", js "a=1")] [(js "a", js "99")])
      jsonHeaders_ref cookiesObj_ref.
Proof.
  intros H. specialize (H (js "a") (js "99") eq_refl).
  vm_compute in H. discriminate H.
Qed.

(** C2 (amended). [processHeaders] leaves every object other than the
    cookie mapping as it was, the header mapping included when it is a
    different object; it leaves the cookie mapping as it was when no header
    key is [cookie] up to case; otherwise it updates the cookie mapping in
    place with the pairs parsed from the first such header. *)
Theorem processHeaders_effect :
  ∀ σ headers cookies,
    (∀ r, r ≠ cookies → (processHeaders headers cookies σ).2 r = σ r) ∧
    (no_key_named (js "cookie") (σ headers) →
     ∀ r, (processHeaders headers cookies σ).2 r = σ r) ∧
    (∀ k raw,
       array_find (lower_is (js "cookie")) (obj_keys (σ headers)) = Some k →
       obj_get k (σ headers) = Some raw →
       (processHeaders headers cookies σ).2 cookies =
       obj_assign (σ cookies) (parseCookieString raw)).
Proof.
  intros σ headers cookies. rewrite processHeaders_eq. split_and!.
  - intros r Hr.
    destruct (array_find _ _) as [k|]; [|done].
    destruct (obj_get k (σ headers)); [|done]. simpl.
    by rewrite fn_lookup_insert_ne.
  - intros Hno%no_key_named_find r. by rewrite Hno.
  - intros k raw -> ->. simpl. by rewrite fn_lookup_insert.
Qed.

Lemma processHeaders_effect_witness :
  (∀ r, (processHeaders jsonHeaders_ref cookiesObj_ref
           (item_store [(js "Accept", js "text/html")] [(js "a", js "99")])).2 r =
        item_store [(js "Accept", js "text/html")] [(js "a", js "99")] r) ∧
  (processHeaders jsonHeaders_ref cookiesObj_ref
     (item_store [(js "Cookie", js "a=1")] [(js "a", js "99")])).2 cookiesObj_ref =
  obj_assign [(js "a", js "99")] (parseCookieString (js "a=1")).
Proof.
  split.
  - apply (proj1 (proj2 (processHeaders_effect
      (item_store [(js "Accept", js "text/html")] [(js "a", js "99")])
      jsonHeaders_ref cookiesObj_ref))).
    intros k [->|[]%elem_of_nil]%elem_of_cons. vm_compute. discriminate.
  - apply (proj2 (proj2 (processHeaders_effect
      (item_store [(js "Cookie", js "a=1")] [(js "a", js "99")])
      jsonHeaders_ref cookiesObj_ref)) (js "Cookie") (js "a=1")); reflexivity.
Defined.

(** Against C2 as stated: the cookie mapping passed in is changed by a call
    with a [Cookie] header. *)
Lemma cookies_argument_mutated :
  ¬ cookies_argument_unchanged
      (item_store [(js "Cookie", js "a=1")] [(js "a", js "99")])
      jsonHeaders_ref cookiesObj_ref.
Proof. unfold cookies_argument_unchanged. vm_compute. discriminate. Qed.

(** C7 (failing input). With two spellings of each header in the header
    mapping, only the first spelling of [Accept-Encoding] and of [Cookie]
    is removed: the returned headers still have an [accept-encoding] and a
    [cookie] key. *)
Theorem case_variant_headers_survive :
  (processHeaders jsonHeaders_ref cookiesObj_ref
     (item_store
        [(js "Accept-Encoding", js "gzip"); (js "accept-encoding", js "br");
         (js "Cookie", js "a=1"); (js "cookie", js "b=2")] [])).1 =
  [(js "accept-encoding", js "br"); (js "cookie", js "b=2")].
Proof. vm_compute. reflexivity. Qed.

(** When each of the two names has at most one spelling among the keys, no
    key of the returned headers is [cookie] or [accept-encoding] up to
    case. *)
Lemma drop_first_named_unique name h :
  (∀ k1 k2, k1 ∈ obj_keys h → k2 ∈ obj_keys h →
     toLowerCase k1 = name → toLowerCase k2 = name → k1 = k2) →
  no_key_named name (drop_first_named name h).
Proof.
  intros Huniq k Hk Hname. unfold drop_first_named in Hk.
  destruct (array_find (lower_is name) (obj_keys h)) as [k'|] eqn:Ek.
  - pose proof (array_find_Some _ _ _ Ek) as [Hin Hk'%bool_decide_eq_true].
    rewrite obj_keys_delete in Hk. apply list_elem_of_filter in Hk as [Hne Hk].
    apply Hne. by apply Huniq.
  - apply no_key_named_find in Ek. by apply (Ek k).
Qed.

Example demo_single_item :
  Demo.run [Demo.item "{}"] (Demo.up "extractText") (Demo.down "extractText")
    false 2 = Returned [Demo.text_of_page].
Proof. vm_compute. reflexivity. Qed.

Example demo_links :
  Demo.run [Demo.item "{}"] (Demo.up "extractLinks") (Demo.down "extractText")
    false 2 =
  Returned [{| out_status := js "success"; out_message := js "Crawling finished";
               out_url := js "http://up.test/";
               out_payload := LinksPayload [js "http://up.test/x"; js "http://y.com"] |}].
Proof. vm_compute. reflexivity. Qed.

(** ** Link extraction *)

Lemma filter_filter_comm {A} (P Q : A → Prop) `{∀ x, Decision (P x)}
    `{∀ x, Decision (Q x)} (l : list A) :
  filter P (filter Q l) = filter Q (filter P l).
Proof.
  induction l as [|x l IH]; [done|].
  rewrite (filter_cons Q), (filter_cons P).
  destruct (decide (Q x)), (decide (P x)).
  - by rewrite (filter_cons_True P), (filter_cons_True Q), IH.
  - by rewrite (filter_cons_False P), IH.
  - by rewrite (filter_cons_False Q), IH.
  - done.
Qed.

Lemma unique_first_filter (P : jstring → Prop) `{∀ x, Decision (P x)} l :
  unique_first (filter P l) = filter P (unique_first l).
Proof.
  induction l as [|x l IH]; [done|].
  rewrite filter_cons. simpl. destruct (decide (P x)) as [Hx|Hx].
  - simpl. rewrite filter_cons_True by done. f_equal.
    rewrite IH. apply filter_filter_comm.
  - rewrite filter_cons_False by done. rewrite IH.
    rewrite list_filter_filter. apply list_filter_iff.
    intros y. split; [|tauto]. intros Hy. split; [done|]. by intros ->.
Qed.

(** Inserting the elements of a list into a [Set] one after the other
    keeps the first occurrence of each. *)
Lemma fold_Set_add l acc :
  fold_left Set_add l acc = acc ++ unique_first (filter (λ x, x ∉ acc) l).
Proof.
  revert acc. induction l as [|x l IH]; intros acc; simpl.
  - by rewrite app_nil_r.
  - unfold Set_add at 2. rewrite filter_cons.
    destruct (bool_decide_reflect (x ∈ acc)) as [Hin|Hin].
    + rewrite decide_False by tauto. apply IH.
    + rewrite decide_True by done. rewrite IH. simpl.
      rewrite <- app_assoc. simpl. do 2 f_equal.
      rewrite <- unique_first_filter, list_filter_filter. f_equal.
      apply list_filter_iff. intros y.
      rewrite elem_of_app, list_elem_of_singleton. tauto.
Qed.

Lemma Set_of_unique_first l : Set_of l = unique_first l.
Proof.
  unfold Set_of. rewrite fold_Set_add. simpl. f_equal.
  induction l as [|x l IH]; [done|].
  rewrite filter_cons_True by apply not_elem_of_nil. by rewrite IH.
Qed.

Lemma elem_of_unique_first x l : x ∈ unique_first l ↔ x ∈ l.
Proof.
  induction l as [|y l IH]; [done|]. simpl.
  rewrite !elem_of_cons, list_elem_of_filter, IH.
  destruct (decide (x = y)); tauto.
Qed.

Lemma NoDup_unique_first l : NoDup (unique_first l).
Proof.
  induction l as [|y l IH]; simpl; [apply NoDup_nil_2|].
  apply NoDup_cons. split.
  - by intros [? _]%list_elem_of_filter.
  - by apply NoDup_filter.
Qed.

Lemma elem_of_concat {A} (x : A) (ls : list (list A)) :
  x ∈ concat ls ↔ ∃ l, l ∈ ls ∧ x ∈ l.
Proof.
  induction ls as [|l ls IH]; simpl.
  - split; [by intros ?%elem_of_nil|]. by intros (l & ?%elem_of_nil & _).
  - rewrite elem_of_app, IH. split.
    + intros [H|(l' & Hl' & Hx)].
      * exists l. split; [by apply elem_of_cons; left | done].
      * exists l'. split; [by apply elem_of_cons; right | done].
    + intros (l' & [->|Hl']%elem_of_cons & Hx); [by left|].
      right. by exists l'.
Qed.

Lemma elem_of_spec_links resolve pages u :
  u ∈ spec_links resolve pages ↔
  ∃ pg href, pg ∈ pages ∧ href ∈ anchor_hrefs pg ∧ href ≠ [] ∧
             resolve href (request_url pg) = Some u.
Proof.
  unfold spec_links. rewrite elem_of_unique_first, elem_of_concat. split.
  - intros (l & (pg & -> & Hpg)%list_elem_of_fmap & Hu).
    apply list_elem_of_omap in Hu as (href & [Hne Hin]%list_elem_of_filter & Hr).
    by exists pg, href.
  - intros (pg & href & Hpg & Hin & Hne & Hr). eexists. split.
    + apply list_elem_of_fmap. by exists pg.
    + apply list_elem_of_omap. exists href. split; [|done].
      by apply list_elem_of_filter.
Qed.

Lemma init_scripts_app a b : init_scripts (a ++ b) = init_scripts a ++ init_scripts b.
Proof. apply omap_app. Qed.

(** The init scripts installed by the browser hook, from the headers
    [processHeaders] returns. *)
Lemma hook_init_scripts originalUrl headers cookies σ :
  init_scripts (browserPreNavigationHook originalUrl headers cookies σ).1 =
  match array_find (lower_is (js "user-agent"))
          (obj_keys (processHeaders headers cookies σ).1) with
  | Some k =>
      match obj_get k (processHeaders headers cookies σ).1 with
      | Some ua => [ua]
      | None => []
      end
  | None => []
  end.
Proof.
  unfold browserPreNavigationHook, mbind, Eff_bind, mret, Eff_ret, deref.
  destruct (processHeaders headers cookies σ) as [final σ']. cbn [fst].
  rewrite !init_scripts_app.
  assert (init_scripts
    (if (0 <? length (obj_keys (σ' cookies)))%nat
     then [AddCookies (map (λ '(name, value), (name, value, originalUrl)) (σ' cookies))]
     else []) = []) as Hcookies by by destruct (0 <? _)%nat.
  rewrite Hcookies. clear Hcookies.
  change (init_scripts [SetViewportSize 1920 1080]) with (@nil (list ascii)).
  rewrite !app_nil_r.
  destruct (array_find (lower_is (js "user-agent")) (obj_keys final))
    as [k|] eqn:Ek.
  - pose proof (array_find_Some _ _ _ Ek) as [Hin Hk].
    rewrite (lower_is_truthy (js "user-agent") k) by done.
    destruct (obj_keys final) as [|k0 ks]; [by apply elem_of_nil in Hin|].
    cbn [length Nat.ltb Nat.leb]. by destruct (obj_get k final).
  - by destruct (0 <? length (obj_keys final))%nat.
Qed.

Section ExecuteProperties.

Variable host : Host.

Lemma item_fetch_proxyUrls itemIndex p maxRequests :
  fetch_proxyUrls (item_fetch host itemIndex p maxRequests) =
  item_proxyConfiguration p.
Proof. unfold item_fetch. by destruct (param_useBrowser p). Qed.

(** A fetch that handled pages had its proxy configuration set up. *)
Lemma crawl_handled f pages :
  crawl host f = CrawlHandled pages →
  proxy_error host (fetch_proxyUrls f) = None ∧ crawler_run host f = CrawlHandled pages.
Proof. unfold crawl. by destruct (proxy_error host (fetch_proxyUrls f)). Qed.

Lemma page_links_spec pg :
  page_links host pg =
  omap (λ href, resolveURL host href (request_url pg))
    (filter (λ href, href ≠ []) (anchor_hrefs pg)).
Proof.
  unfold page_links.
  enough (∀ acc,
    fold_left
      (λ links href,
         if truthy href then
           match resolveURL host href (request_url pg) with
           | Some absolute => links ++ [absolute]
           | None => links
           end
         else links) (anchor_hrefs pg) acc =
    acc ++ omap (λ href, resolveURL host href (request_url pg))
             (filter (λ href, href ≠ []) (anchor_hrefs pg))) as Hacc
    by apply (Hacc []).
  induction (anchor_hrefs pg) as [|href hrefs IH]; intros acc.
  - simpl. by rewrite app_nil_r.
  - cbn [fold_left]. destruct href as [|c href]; cbn [truthy].
    + rewrite (filter_cons_False (λ href : jstring, href ≠ []))
        by (by intros Hn; apply Hn).
      apply IH.
    + rewrite (filter_cons_True (λ href : jstring, href ≠ [])) by done.
      rewrite IH. csimpl.
      destruct (resolveURL host (c :: href) (request_url pg)); [|done].
      by rewrite <- app_assoc.
Qed.

Lemma links_record_spec originalUrl pages :
  links_record host originalUrl pages =
  {| out_status := js "success";
     out_message := js "Crawling finished";
     out_url := originalUrl;
     out_payload := LinksPayload (spec_links (resolveURL host) pages) |}.
Proof.
  unfold links_record, spec_links. rewrite Set_of_unique_first.
  do 3 f_equal. rewrite <- list_fmap_compose. f_equal.
  apply list_fmap_ext. intros _ pg _. simpl. apply page_links_spec.
Qed.


(** C8. For the pages handed to the link request handler, the record
    appended to the results holds the [href] of every anchor with a
    non-empty [href] that resolves against the page's URL (an [href]
    whose resolution throws is left out and nothing fails), without
    repetitions and in order of first occurrence; anchors [/x],
    [http://y.com], [/x] give exactly two links. *)
Theorem extractLinks_result :
  (∀ itemIndex st pages,
     param_operation (getNodeParameter host itemIndex) = js "extractLinks" →
     crawl host (item_fetch host itemIndex (getNodeParameter host itemIndex)
                   (Some 100)) = CrawlHandled pages →
     try_block host itemIndex st =
     ({| items := items st;
         returnData := returnData st ++
           [{| out_status := js "success";
               out_message := js "Crawling finished";
               out_url := param_url (getNodeParameter host itemIndex);
               out_payload := LinksPayload (spec_links (resolveURL host) pages) |}];
         fetches := fetches st ++
           [item_fetch host itemIndex (getNodeParameter host itemIndex) (Some 100)] |},
      None)) ∧
  (∀ pages, NoDup (spec_links (resolveURL host) pages)) ∧
  (∀ pages u,
     u ∈ spec_links (resolveURL host) pages ↔
     ∃ pg href, pg ∈ pages ∧ href ∈ anchor_hrefs pg ∧ href ≠ [] ∧
                resolveURL host href (request_url pg) = Some u) ∧
  (∀ pg ux uy,
     anchor_hrefs pg = [js "/x"; js "http://y.com"; js "/x"] →
     resolveURL host (js "/x") (request_url pg) = Some ux →
     resolveURL host (js "http://y.com") (request_url pg) = Some uy →
     ux ≠ uy →
     spec_links (resolveURL host) [pg] = [ux; uy]).
Proof.
  split_and!.
  - intros i st pages Hop [Hproxy Hrun]%crawl_handled.
    rewrite item_fetch_proxyUrls in Hproxy. unfold try_block, run_crawler.
    rewrite Hproxy, Hop.
    change (eqs (js "extractLinks") (js "extractLinks")) with true.
    cbn iota. rewrite Hrun. by rewrite links_record_spec.
  - intros pages. apply NoDup_unique_first.
  - intros pages u. apply elem_of_spec_links.
  - intros pg ux uy Hhrefs Hx Hy Hne. unfold spec_links. cbn [map concat].
    rewrite Hhrefs, app_nil_r.
    rewrite !(filter_cons_True (λ href : jstring, href ≠ [])) by done.
    rewrite filter_nil. cbn [omap list_omap]. rewrite Hx, Hy.
    cbn [unique_first]. rewrite !filter_cons, filter_nil.
    rewrite (decide_True (P := uy ≠ ux)) by done.
    rewrite (decide_True (P := ux ≠ uy)) by done.
    rewrite filter_cons, filter_nil.
    by rewrite (decide_False (P := ux ≠ ux)) by (intros Hn; by apply Hn).
Qed.

(** C9. On the browser path the page setup installs one init script,
    with the value of a header whose key is [user-agent] up to case (the
    first in key order), when the reconciled headers have such a key, and
    none when they have no such key; the static path installs nothing. *)
Theorem navigator_patch :
  ∀ itemIndex p maxRequests,
    let final :=
      (processHeaders jsonHeaders_ref cookiesObj_ref
         (item_store (item_jsonHeaders p) (item_cookiesObj p))).1 in
    let setup := fetch_page_setup (item_fetch host itemIndex p maxRequests) in
    (param_useBrowser p = true →
       ((∃ k, k ∈ obj_keys final ∧ toLowerCase k = js "user-agent") →
        ∃ k ua, k ∈ obj_keys final ∧ toLowerCase k = js "user-agent" ∧
                obj_get k final = Some ua ∧ init_scripts setup = [ua]) ∧
       (no_key_named (js "user-agent") final → init_scripts setup = [])) ∧
    (param_useBrowser p = false → init_scripts setup = []).
Proof.
  intros i p m final setup. subst setup. unfold item_fetch. split.
  - intros ->. cbn [fetch_page_setup]. rewrite hook_init_scripts. fold final.
    split.
    + intros (k0 & Hk0 & Hlow).
      destruct (array_find (lower_is (js "user-agent")) (obj_keys final))
        as [k|] eqn:Ek.
      * pose proof (array_find_Some _ _ _ Ek) as [Hin Hk%bool_decide_eq_true].
        destruct (obj_get_of_key k final Hin) as [ua Hua].
        exists k, ua. by rewrite Hua.
      * apply no_key_named_find in Ek. by destruct (Ek k0).
    + intros Hno%no_key_named_find. by rewrite Hno.
  - by intros ->.
Qed.

(** What the [try] block of an item does to the state does not depend on
    the state it starts from. *)
Lemma try_block_throws itemIndex st :
  (try_block host itemIndex st).2 = item_throws host itemIndex.
Proof.
  unfold item_throws, try_block, run_crawler.
  repeat match goal with
  | |- context [match ?x with _ => _ end] => destruct x
  end; done.
Qed.

Lemma try_block_items itemIndex st :
  items (try_block host itemIndex st).1 = items st.
Proof.
  unfold try_block, run_crawler.
  repeat match goal with
  | |- context [match ?x with _ => _ end] => destruct x
  end; done.
Qed.

Lemma try_block_returnData itemIndex st :
  returnData (try_block host itemIndex st).1 =
  returnData st ++ item_records host itemIndex.
Proof.
  unfold item_records, try_block, run_crawler.
  repeat match goal with
  | |- context [match ?x with _ => _ end] => destruct x
  end; simpl; by rewrite ?app_nil_r.
Qed.

Lemma item_throws_no_records itemIndex error :
  item_throws host itemIndex = Some error → item_records host itemIndex = [].
Proof.
  unfold item_throws, item_records, try_block, run_crawler.
  repeat match goal with
  | |- context [match ?x with _ => _ end] => destruct x
  end; done.
Qed.

Lemma try_block_unknown itemIndex st :
  item_request host itemIndex = None →
  proxy_error host (item_proxyConfiguration (getNodeParameter host itemIndex)) = None →
  try_block host itemIndex st = (st, None).
Proof.
  unfold item_request, try_block. intros Hreq ->. revert Hreq.
  destruct (eqs (param_operation (getNodeParameter host itemIndex)) (js "extractLinks"));
    [done|].
  destruct (eqs (param_operation (getNodeParameter host itemIndex)) (js "extractText"));
    [done|].
  by destruct (eqs (param_operation (getNodeParameter host itemIndex)) (js "extractHtml")).
Qed.

Lemma no_failure_throws itemIndex :
  no_failure host itemIndex → item_throws host itemIndex = None.
Proof.
  intros [Hproxy Hrun]. revert Hrun.
  unfold item_throws, item_request, try_block, run_crawler. rewrite Hproxy.
  repeat match goal with
  | |- context [if eqs ?a ?b then _ else _] => destruct (eqs a b)
  end; cbn [orb]; try done.
  all: intros Hrun;
    match goal with
    | |- context [crawler_run host ?f] =>
        specialize (Hrun f); destruct (crawler_run host f) as [error|]; [|done]
    end;
    by destruct (Hrun error).
Qed.

Lemma item_failure_throws itemIndex error :
  item_failure host itemIndex error → item_throws host itemIndex = Some error.
Proof.
  unfold item_failure, item_throws, item_request, try_block, run_crawler.
  intros [->|(-> & f & Hreq & Hrun)]; [done|]. revert Hreq.
  repeat match goal with
  | |- context [if eqs ?a ?b then _ else _] => destruct (eqs a b)
  end; cbn [orb]; try done.
  all: intros [= <-]; by rewrite Hrun.
Qed.

(** An item that does not throw goes through with its records appended. *)
Lemma run_item_passes itemIndex st :
  item_throws host itemIndex = None →
  ∃ st', run_item host itemIndex st = inl st' ∧
         items st' = items st ∧
         returnData st' = returnData st ++ item_records host itemIndex.
Proof.
  intros Hok. unfold run_item.
  pose proof (try_block_throws itemIndex st) as Ht.
  pose proof (try_block_items itemIndex st) as Hi.
  pose proof (try_block_returnData itemIndex st) as Hr.
  destruct (try_block host itemIndex st) as [st1 e]. simpl in *.
  rewrite Ht, Hok. by exists st1.
Qed.

(** An item that throws, with continue-on-fail on and an input record to
    copy: the failure goes onto the input array. *)
Lemma run_item_caught itemIndex st error first rest :
  item_throws host itemIndex = Some error →
  continueOnFail host = true →
  getInputData host itemIndex = first :: rest →
  ∃ st', run_item host itemIndex st = inl st' ∧
         returnData st' = returnData st ∧
         items st' = items st ++
           [{| item_json := item_json first; item_error := Some error;
               item_pairedItem := Some itemIndex |}].
Proof.
  intros Hthrows Hpolicy Hinput. unfold run_item, catch_block.
  pose proof (try_block_throws itemIndex st) as Ht.
  pose proof (try_block_items itemIndex st) as Hi.
  pose proof (try_block_returnData itemIndex st) as Hr.
  rewrite (item_throws_no_records _ _ Hthrows), app_nil_r in Hr.
  destruct (try_block host itemIndex st) as [st1 e]. simpl in *.
  rewrite Ht, Hthrows, Hpolicy, Hinput. eexists. split; [done|].
  simpl. by rewrite Hi, Hr.
Qed.

(** An item that throws, with continue-on-fail off: the error leaves
    [execute] with the index of the item. *)
Lemma run_item_thrown itemIndex st error :
  item_throws host itemIndex = Some error →
  continueOnFail host = false →
  ∃ t, run_item host itemIndex st = inr t ∧ thrown_itemIndex t = Some itemIndex.
Proof.
  intros Hthrows Hpolicy. unfold run_item, catch_block.
  pose proof (try_block_throws itemIndex st) as Ht.
  destruct (try_block host itemIndex st) as [st1 e]. simpl in *.
  rewrite Ht, Hthrows, Hpolicy.
  destruct (err_context error); eexists; split; done.
Qed.

(** C10 (amended). An item whose operation is none of the three and whose
    proxy list is empty or accepted by the [ProxyConfiguration] constructor
    makes no fetch, adds no result record and throws nothing: the loop goes
    on to the next index with the state as it was. *)
Theorem unknown_operation_skipped :
  ∀ itemIndex st rounds,
    (itemIndex < length (items st))%nat →
    param_operation (getNodeParameter host itemIndex) ≠ js "extractLinks" →
    param_operation (getNodeParameter host itemIndex) ≠ js "extractText" →
    param_operation (getNodeParameter host itemIndex) ≠ js "extractHtml" →
    proxy_error host
      (item_proxyConfiguration (getNodeParameter host itemIndex)) = None →
    run_item host itemIndex st = inl st ∧
    execute_loop host (S rounds) itemIndex st =
    execute_loop host rounds (S itemIndex) st.
Proof.
  intros i st rounds Hi H1 H2 H3 Hproxy.
  assert (run_item host i st = inl st) as Hrun.
  { unfold run_item. rewrite try_block_unknown; [done| |done].
    unfold item_request, eqs. by rewrite !bool_decide_eq_false_2 by done. }
  split; [done|]. simpl.
  destruct (Nat.ltb_spec i (length (items st))); [|lia]. by rewrite Hrun.
Qed.

Lemma run_item_items itemIndex st st' :
  continueOnFail host = false →
  run_item host itemIndex st = inl st' → items st' = items st.
Proof.
  intros Hpolicy. unfold run_item, catch_block. rewrite Hpolicy.
  pose proof (try_block_items itemIndex st) as Hitems.
  destruct (try_block host itemIndex st) as [st1 [error|]]; simpl in Hitems.
  - by destruct (err_context error).
  - by intros [= <-].
Qed.

(** With continue-on-fail off the input array never grows, and the loop
    ends within one round per remaining item. *)
Lemma execute_loop_ends rounds itemIndex st :
  continueOnFail host = false →
  (length (items st) - itemIndex < rounds)%nat →
  execute_loop host rounds itemIndex st ≠ StillRunning.
Proof.
  intros Hpolicy. revert itemIndex st.
  induction rounds as [|rounds IH]; intros i st Hlt; [lia|]. simpl.
  destruct (Nat.ltb_spec i (length (items st))); [|done].
  destruct (run_item host i st) as [st'|t] eqn:Hrun; [|done].
  apply IH. rewrite (run_item_items i st st') by done. lia.
Qed.

(** C3 (failing input).  No failure outcome is produced for an item that
    fails.  When its [try] block throws and continue-on-fail is on, the
    entry describing the failure is appended to the input array, which
    [execute] does not return: the results stay as they were and the loop
    gets one more round.  When the crawler returns without having handled a
    page, as for a target it cannot reach, nothing is thrown and the item
    goes through like any other, with the records of an item that
    succeeded. *)
Theorem failure_outcome_missing :
  ∀ itemIndex st,
    (itemIndex < length (items st))%nat →
    (∀ error first rest,
       item_failure host itemIndex error →
       continueOnFail host = true →
       getInputData host itemIndex = first :: rest →
       ∃ st', run_item host itemIndex st = inl st' ∧
              returnData st' = returnData st ∧
              items st' = items st ++
                [{| item_json := item_json first; item_error := Some error;
                    item_pairedItem := Some itemIndex |}] ∧
              ∀ rounds, execute_loop host (S rounds) itemIndex st =
                        execute_loop host rounds (S itemIndex) st') ∧
    (∀ f,
       item_request host itemIndex = Some f →
       crawl host f = CrawlHandled [] →
       Forall (λ r, out_status r = js "success") (item_records host itemIndex) ∧
       ∃ st', run_item host itemIndex st = inl st' ∧
              items st' = items st ∧
              returnData st' = returnData st ++ item_records host itemIndex).
Proof.
  intros i st Hi. split.
  - intros error first rest Hthrows%item_failure_throws Hpolicy Hinput.
    destruct (run_item_caught i st error first rest) as (st' & Hrun & Hr & Hit);
      [done..|].
    exists st'. split_and!; [done..|]. intros rounds. simpl.
    destruct (Nat.ltb_spec i (length (items st))); [|lia]. by rewrite Hrun.
  - intros f Hreq [Hproxy Hrun]%crawl_handled.
    assert (item_throws host i = None ∧
            Forall (λ r, out_status r = js "success") (item_records host i))
      as [Hok Hrec].
    { revert Hreq Hproxy Hrun.
      unfold item_throws, item_records, item_request, try_block, run_crawler.
      repeat match goal with
      | |- context [if eqs ?a ?b then _ else _] => destruct (eqs a b)
      end; cbn [orb]; try done.
      all: intros [= <-]; rewrite item_fetch_proxyUrls; intros -> ->; simpl.
      all: split; [done|]. all: by repeat constructor. }
    split; [done|]. by apply run_item_passes.
Qed.

End ExecuteProperties.

(** ** The properties on the example host *)

Lemma failure_outcome_missing_witness :
  (∃ st',
     run_item
       (Demo.host [Demo.item "{}"] (Demo.with_proxy (Demo.up "extractText") "garbage")
          (Demo.up "noop") true)
       0 (Demo.start [Demo.item "{}"]) = inl st' ∧
     returnData st' = [] ∧
     items st' =
       [Demo.item "{}"] ++
       [{| item_json := js "{}"; item_error := Some Demo.rejected;
           item_pairedItem := Some 0%nat |}] ∧
     ∀ rounds,
       execute_loop
         (Demo.host [Demo.item "{}"] (Demo.with_proxy (Demo.up "extractText") "garbage")
            (Demo.up "noop") true)
         (S rounds) 0 (Demo.start [Demo.item "{}"]) =
       execute_loop
         (Demo.host [Demo.item "{}"] (Demo.with_proxy (Demo.up "extractText") "garbage")
            (Demo.up "noop") true)
         rounds 1 st') ∧
  Forall (λ r, out_status r = js "success")
    (item_records
       (Demo.host [Demo.item "{}"] (Demo.down "extractLinks") (Demo.up "noop") false) 0).
Proof.
  split.
  - apply (proj1 (failure_outcome_missing
      (Demo.host [Demo.item "{}"] (Demo.with_proxy (Demo.up "extractText") "garbage")
         (Demo.up "noop") true)
      0 (Demo.start [Demo.item "{}"]) (Nat.lt_0_1))
      Demo.rejected (Demo.item "{}") []); [left|..]; reflexivity.
  - apply (proj2 (failure_outcome_missing
      (Demo.host [Demo.item "{}"] (Demo.down "extractLinks") (Demo.up "noop") false)
      0 (Demo.start [Demo.item "{}"]) (Nat.lt_0_1))
      _ eq_refl eq_refl).
Defined.

(** The failing inputs of C3 on the example host.  A target that cannot be
    reached gives a success record with no link, or no record at all, under
    either failure policy; a rejected proxy line with continue-on-fail on
    gives no record, and a second round on the index after the batch. *)
Example demo_failures_leave_no_outcome :
  Demo.run [Demo.item "{}"] (Demo.down "extractLinks") (Demo.up "noop") true 2 =
    Returned [{| out_status := js "success"; out_message := js "Crawling finished";
                 out_url := js "http://down.test";
                 out_payload := LinksPayload [] |}] ∧
  Demo.run [Demo.item "{}"] (Demo.down "extractText") (Demo.up "noop") false 2 =
    Returned [] ∧
  Demo.run [Demo.item "{}"] (Demo.with_proxy (Demo.up "extractText") "garbage")
    (Demo.up "noop") true 3 = Returned [] ∧
  Demo.run [Demo.item "{}"] (Demo.with_proxy (Demo.up "extractText") "garbage")
    (Demo.up "extractText") true 3 = Returned [Demo.text_of_page] ∧
  Demo.run [Demo.item "{}"] (Demo.with_proxy (Demo.up "extractText") "garbage")
    (Demo.with_proxy (Demo.up "extractText") "garbage") true 3 = Threw ThrowTypeError.
Proof. split_and!; vm_compute; reflexivity. Qed.

Lemma unknown_operation_skipped_witness :
  run_item
    (Demo.host [Demo.item "{}"] (Demo.up "noop") (Demo.up "noop") false)
    0 (Demo.start [Demo.item "{}"]) = inl (Demo.start [Demo.item "{}"]) ∧
  execute_loop
    (Demo.host [Demo.item "{}"] (Demo.up "noop") (Demo.up "noop") false)
    2 0 (Demo.start [Demo.item "{}"]) =
  execute_loop
    (Demo.host [Demo.item "{}"] (Demo.up "noop") (Demo.up "noop") false)
    1 1 (Demo.start [Demo.item "{}"]).
Proof.
  apply (unknown_operation_skipped
    (Demo.host [Demo.item "{}"] (Demo.up "noop") (Demo.up "noop") false)
    0 (Demo.start [Demo.item "{}"]) 1).
  - simpl. lia.
  - vm_compute. discriminate.
  - vm_compute. discriminate.
  - vm_compute. discriminate.
  - reflexivity.
Defined.

(** Against C10 as stated: an item with an unknown operation and a proxy
    line that the constructor rejects makes [execute] throw. *)
Lemma unknown_operation_rejected_proxy_throws :
  Demo.run [Demo.item "{}"] (Demo.with_proxy (Demo.up "noop") "garbage")
    (Demo.up "noop") false 2 =
  Threw (ThrowNodeOperationError Demo.rejected 0).
Proof. vm_compute. reflexivity. Qed.

Lemma extractLinks_result_witness :
  try_block
    (Demo.host [Demo.item "{}"] (Demo.up "extractLinks") (Demo.up "extractLinks") false)
    0 (Demo.start [Demo.item "{}"]) =
  ({| items := [Demo.item "{}"];
      returnData :=
        [{| out_status := js "success";
            out_message := js "Crawling finished";
            out_url := js "http://up.test/";
            out_payload := LinksPayload (spec_links Demo.resolve [Demo.page]) |}];
      fetches :=
        [item_fetch
           (Demo.host [Demo.item "{}"] (Demo.up "extractLinks")
              (Demo.up "extractLinks") false)
           0 (Demo.up "extractLinks") (Some 100)] |}, None) ∧
  spec_links Demo.resolve [Demo.page] = [js "http://up.test/x"; js "http://y.com"].
Proof.
  pose proof (extractLinks_result
    (Demo.host [Demo.item "{}"] (Demo.up "extractLinks") (Demo.up "extractLinks") false))
    as (Hrecord & _ & _ & Htwo).
  split.
  - apply (Hrecord 0%nat (Demo.start [Demo.item "{}"]) [Demo.page]).
    + reflexivity.
    + vm_compute. reflexivity.
  - apply (Htwo Demo.page (js "http://up.test/x") (js "http://y.com")).
    + reflexivity.
    + reflexivity.
    + reflexivity.
    + vm_compute. discriminate.
Defined.

Lemma navigator_patch_witness :
  ∃ k ua,
    k ∈ obj_keys
          (processHeaders jsonHeaders_ref cookiesObj_ref
             (item_store [(js "User-Agent", js "Mozilla/5.0")] [])).1 ∧
    toLowerCase k = js "user-agent" ∧
    obj_get k
      (processHeaders jsonHeaders_ref cookiesObj_ref
         (item_store [(js "User-Agent", js "Mozilla/5.0")] [])).1 = Some ua ∧
    init_scripts
      (fetch_page_setup
         (item_fetch
            (Demo.host [Demo.item "{}"] (Demo.up "extractText")
               (Demo.up "extractText") false)
            0
            (Demo.browser_parameters "http://up.test/" "extractText"
               [(js "User-Agent", js "Mozilla/5.0")])
            None)) = [ua].
Proof.
  refine (proj1 (proj1 (navigator_patch
    (Demo.host [Demo.item "{}"] (Demo.up "extractText") (Demo.up "extractText") false)
    0%nat
    (Demo.browser_parameters "http://up.test/" "extractText"
       [(js "User-Agent", js "Mozilla/5.0")])
    None) _) _).
  - reflexivity.
  - exists (js "User-Agent"). split; [by_compute | reflexivity].
Defined.




(** * Further properties of the dispatcher and the normalizers *)

(** ** [appendTimestampToUrl] *)

(** X1. The time stamp is appended as text at the very end of the URL,
    after a [?] when the URL has no [?] anywhere and after an [&]
    otherwise.  The result always has a [?] in it, so that a second
    application uses [&].  A fragment is not looked at: for a URL with a
    [#] the stamp is put at the end of the fragment. *)
Theorem appendTimestampToUrl_query :
  ∀ now url,
    "?"%char ∈ appendTimestampToUrl now url ∧
    ("?"%char ∉ url → appendTimestampToUrl now url = url ++ js "?_=" ++ now) ∧
    ("?"%char ∈ url → appendTimestampToUrl now url = url ++ js "&_=" ++ now) ∧
    (∀ later, appendTimestampToUrl later (appendTimestampToUrl now url) =
              appendTimestampToUrl now url ++ js "&_=" ++ later) ∧
    (∀ base fragment, url = base ++ "#"%char :: fragment →
       ∃ separator,
         appendTimestampToUrl now url =
         base ++ "#"%char :: (fragment ++ separator ++ js "_=" ++ now)).
Proof.
  intros now url.
  assert ("?"%char ∈ appendTimestampToUrl now url) as Hq.
  { unfold appendTimestampToUrl.
    destruct (includes "?"%char url) eqn:E.
    - apply elem_of_app. left. by apply includes_true.
    - apply elem_of_app. right. by apply elem_of_cons; left. }
  split_and!; [done| | | |].
  - intros Hno. unfold appendTimestampToUrl, includes.
    by rewrite bool_decide_eq_false_2.
  - intros Hyes. unfold appendTimestampToUrl, includes.
    by rewrite bool_decide_eq_true_2.
  - intros later. unfold appendTimestampToUrl at 1.
    apply includes_true in Hq. by rewrite Hq.
  - intros base fragment ->. unfold appendTimestampToUrl.
    eexists. rewrite <- app_assoc. simpl. reflexivity.
Qed.

Lemma appendTimestampToUrl_query_witness :
  appendTimestampToUrl (js "17") (js "http://up.test/a") = js "http://up.test/a?_=17".
Proof.
  apply (proj1 (proj2 (appendTimestampToUrl_query (js "17") (js "http://up.test/a")))).
  by_compute.
Defined.

(** ** [processHeaders], further *)

Lemma obj_update_same k v o : obj_get k o = Some v → obj_update k v o = o.
Proof.
  induction o as [|[k0 v0] o IH]; simpl; [done|].
  destruct (decide (k0 = k)) as [->|Hne].
  - by intros [= ->].
  - intros H. by rewrite IH.
Qed.

Lemma obj_set_same k v o : obj_get k o = Some v → obj_set k v o = o.
Proof.
  intros H. unfold obj_set.
  rewrite (proj2 (has_own_true k o)) by by eapply obj_get_Some_key.
  by apply obj_update_same.
Qed.

Lemma obj_assign_absorb o source :
  (∀ k v, (k, v) ∈ source → obj_get k o = Some v) → obj_assign o source = o.
Proof.
  unfold obj_assign. induction source as [|[k v] source IH]; intros H; [done|].
  simpl. rewrite obj_set_same.
  - apply IH. intros k' v' Hin. apply H. by apply elem_of_cons; right.
  - apply H. by apply elem_of_cons; left.
Qed.

Lemma obj_get_elem_of k v o : wf_obj o → (k, v) ∈ o → obj_get k o = Some v.
Proof.
  unfold wf_obj, obj_keys. induction o as [|[k0 v0] o IH]; [by intros _ ?%elem_of_nil|].
  rewrite fmap_cons, NoDup_cons. intros [Hk0 Hnd] [[= -> ->]|Hin]%elem_of_cons; simpl.
  - by rewrite decide_True.
  - rewrite decide_False; [by apply IH|].
    intros ->. apply Hk0. apply list_elem_of_fmap. by exists (k, v).
Qed.

Lemma obj_get_Some_elem_of k v o : obj_get k o = Some v → (k, v) ∈ o.
Proof.
  induction o as [|[k0 v0] o IH]; simpl; [done|].
  destruct (decide (k0 = k)) as [->|Hne].
  - intros [= ->]. by apply elem_of_cons; left.
  - intros H. apply elem_of_cons; right. by apply IH.
Qed.

(** Assigning the same source a second time changes nothing. *)
Lemma obj_assign_idemp o source :
  wf_obj source → PROTO ∉ obj_keys source →
  obj_assign (obj_assign o source) source = obj_assign o source.
Proof.
  intros Hwf Hp. apply obj_assign_absorb. intros k v Hin.
  rewrite obj_get_assign by done. by rewrite (obj_get_elem_of k v source).
Qed.

(** [processHeaders] writes to no object but the cookie mapping. *)
Lemma processHeaders_frame σ headers cookies r :
  r ≠ cookies → (processHeaders headers cookies σ).2 r = σ r.
Proof.
  intros Hr. rewrite processHeaders_eq.
  destruct (array_find _ _) as [k|]; [|done].
  destruct (obj_get k (σ headers)); [|done]. simpl.
  by rewrite fn_lookup_insert_ne.
Qed.

(** X2. The hooks call [processHeaders] every time they run.  When the
    header mapping and the cookie mapping are different objects, a second
    call returns the same headers and leaves every object as the first call
    left it. *)
Theorem processHeaders_idempotent :
  ∀ σ headers cookies,
    headers ≠ cookies →
    (processHeaders headers cookies (processHeaders headers cookies σ).2).1 =
      (processHeaders headers cookies σ).1 ∧
    ∀ r, (processHeaders headers cookies (processHeaders headers cookies σ).2).2 r =
         (processHeaders headers cookies σ).2 r.
Proof.
  intros σ headers cookies Hne.
  pose proof (processHeaders_frame σ headers cookies headers Hne) as Hsame.
  rewrite (processHeaders_eq headers cookies (processHeaders headers cookies σ).2).
  rewrite Hsame. rewrite (processHeaders_eq headers cookies σ).
  destruct (array_find (lower_is (js "cookie")) (obj_keys (σ headers))) as [k|];
    [|done].
  destruct (obj_get k (σ headers)) as [raw|]; [|done]. simpl.
  split; [done|]. intros r. rewrite fn_lookup_insert.
  destruct (decide (cookies = r)) as [<-|Hr].
  - rewrite !fn_lookup_insert.
    apply obj_assign_idemp; [apply wf_parseCookieString | apply proto_parseCookieString].
  - by rewrite !fn_lookup_insert_ne.
Qed.

Lemma processHeaders_idempotent_witness :
  (processHeaders jsonHeaders_ref cookiesObj_ref
     (processHeaders jsonHeaders_ref cookiesObj_ref
        (item_store [(js "Cookie", js "a=1; b=2")] [(js "a", js "99")])).2).1 =
  (processHeaders jsonHeaders_ref cookiesObj_ref
     (item_store [(js "Cookie", js "a=1; b=2")] [(js "a", js "99")])).1.
Proof.
  apply (processHeaders_idempotent
    (item_store [(js "Cookie", js "a=1; b=2")] [(js "a", js "99")])
    jsonHeaders_ref cookiesObj_ref).
  vm_compute. discriminate.
Defined.

Lemma obj_delete_sublist k o : obj_delete k o `sublist_of` o.
Proof. apply sublist_filter. Qed.

Lemma drop_first_named_sublist name h : drop_first_named name h `sublist_of` h.
Proof.
  unfold drop_first_named. destruct (array_find _ _); [apply obj_delete_sublist | done].
Qed.

Lemma obj_delete_length k o :
  wf_obj o → (length o ≤ length (obj_delete k o) + 1)%nat.
Proof.
  unfold wf_obj, obj_keys, obj_delete. induction o as [|[k0 v0] o IH]; [simpl; lia|].
  rewrite fmap_cons, NoDup_cons. intros [Hk0 Hnd].
  destruct (decide (k0 = k)) as [->|Hne].
  - rewrite (filter_cons_False (λ kv : jstring * jstring, kv.1 ≠ k))
      by (simpl; naive_solver).
    assert (filter (λ kv : jstring * jstring, kv.1 ≠ k) o = o) as ->; [|simpl; lia].
    clear IH Hnd. induction o as [|[k1 v1] o IH]; [done|].
    rewrite fmap_cons, not_elem_of_cons in Hk0. destruct Hk0 as [Hk1 Hk0].
    rewrite (filter_cons_True (λ kv : jstring * jstring, kv.1 ≠ k))
      by (simpl; intros ->; by apply Hk1).
    f_equal. by apply IH.
  - rewrite (filter_cons_True (λ kv : jstring * jstring, kv.1 ≠ k)) by done.
    simpl. specialize (IH Hnd). lia.
Qed.

Lemma drop_first_named_length name h :
  wf_obj h → (length h ≤ length (drop_first_named name h) + 1)%nat.
Proof.
  intros Hwf. unfold drop_first_named.
  destruct (array_find _ _); [by apply obj_delete_length | lia].
Qed.

Lemma wf_drop_first_named name h : wf_obj h → wf_obj (drop_first_named name h).
Proof.
  intros Hwf. unfold drop_first_named.
  destruct (array_find _ _); [by apply wf_obj_delete | done].
Qed.

(** X3. The headers [processHeaders] returns are the entries of the header
    mapping in their order, with their keys and values as they were, less
    at most two entries; an entry whose name is neither [cookie] nor
    [accept-encoding] up to case is always among them. *)
Theorem processHeaders_returns_sublist :
  ∀ σ headers cookies,
    (processHeaders headers cookies σ).1 `sublist_of` σ headers ∧
    (∀ name,
       toLowerCase name ≠ js "cookie" →
       toLowerCase name ≠ js "accept-encoding" →
       obj_get name (processHeaders headers cookies σ).1 = obj_get name (σ headers)) ∧
    (wf_obj (σ headers) →
     (length (σ headers) ≤ length (processHeaders headers cookies σ).1 + 2)%nat).
Proof.
  intros σ headers cookies. split_and!.
  - rewrite processHeaders_headers.
    etrans; apply drop_first_named_sublist.
  - intros name. apply processHeaders_keeps_others.
  - intros Hwf. rewrite processHeaders_headers.
    pose proof (drop_first_named_length (js "cookie") (σ headers) Hwf).
    pose proof (drop_first_named_length (js "accept-encoding")
      (drop_first_named (js "cookie") (σ headers))
      (wf_drop_first_named _ _ Hwf)).
    lia.
Qed.

Lemma processHeaders_returns_sublist_witness :
  obj_get (js "Accept")
    (processHeaders jsonHeaders_ref cookiesObj_ref
       (item_store [(js "Accept", js "*/*"); (js "Cookie", js "a=1")] [])).1 =
  obj_get (js "Accept") [(js "Accept", js "*/*"); (js "Cookie", js "a=1")].
Proof.
  apply (proj1 (proj2 (processHeaders_returns_sublist
    (item_store [(js "Accept", js "*/*"); (js "Cookie", js "a=1")] [])
    jsonHeaders_ref cookiesObj_ref))); vm_compute; discriminate.
Defined.

(** X4. When the header mapping has at most one spelling of [cookie] and
    at most one of [accept-encoding], no key of the returned headers is
    either name up to case. *)
Theorem processHeaders_removes_single_spellings :
  ∀ σ headers cookies,
    one_spelling (js "cookie") (σ headers) →
    one_spelling (js "accept-encoding") (σ headers) →
    no_key_named (js "cookie") (processHeaders headers cookies σ).1 ∧
    no_key_named (js "accept-encoding") (processHeaders headers cookies σ).1.
Proof.
  intros σ headers cookies Hc He. rewrite processHeaders_headers. split.
  - intros k Hk%obj_keys_drop_first_named.
    by apply (drop_first_named_unique (js "cookie") (σ headers)).
  - apply drop_first_named_unique. intros k1 k2 H1 H2.
    apply He; by eapply obj_keys_drop_first_named.
Qed.

Lemma processHeaders_removes_single_spellings_witness :
  no_key_named (js "cookie")
    (processHeaders jsonHeaders_ref cookiesObj_ref
       (item_store [(js "COOKIE", js "a=1"); (js "Accept-Encoding", js "gzip")] [])).1 ∧
  no_key_named (js "accept-encoding")
    (processHeaders jsonHeaders_ref cookiesObj_ref
       (item_store [(js "COOKIE", js "a=1"); (js "Accept-Encoding", js "gzip")] [])).1.
Proof.
  apply (processHeaders_removes_single_spellings
    (item_store [(js "COOKIE", js "a=1"); (js "Accept-Encoding", js "gzip")] [])
    jsonHeaders_ref cookiesObj_ref).
  - intros k1 k2 H1 H2 E1 E2.
    apply elem_of_cons in H1 as [->|H1]; [|apply elem_of_cons in H1 as [->|H1]];
      [| by vm_compute in E1 | by apply elem_of_nil in H1].
    apply elem_of_cons in H2 as [->|H2]; [done|].
    apply elem_of_cons in H2 as [->|H2]; [by vm_compute in E2 | by apply elem_of_nil in H2].
  - intros k1 k2 H1 H2 E1 E2.
    apply elem_of_cons in H1 as [->|H1]; [by vm_compute in E1|].
    apply elem_of_cons in H1 as [->|H1]; [|by apply elem_of_nil in H1].
    apply elem_of_cons in H2 as [->|H2]; [by vm_compute in E2|].
    apply elem_of_cons in H2 as [->|H2]; [done | by apply elem_of_nil in H2].
Defined.

(** ** The cookie normalizer and the [Cookie] header the static hook writes *)

Lemma split_segments_no_sep sep s l : l ∈ split sep s → sep ∉ l.
Proof.
  revert l. induction s as [|x s IH]; intros l; simpl.
  - intros ->%list_elem_of_singleton. apply not_elem_of_nil.
  - destruct (decide (x = sep)) as [->|Hx].
    + intros [->|Hl]%elem_of_cons; [apply not_elem_of_nil | by apply IH].
    + pose proof (split_nonempty sep s) as Hne.
      destruct (split sep s) as [|seg rest]; [done|].
      intros [->|Hl]%elem_of_cons.
      * rewrite not_elem_of_cons. split; [done|].
        apply IH. by apply elem_of_cons; left.
      * apply IH. by apply elem_of_cons; right.
Qed.

Lemma split_join_semi_space pre s rest :
  SEMI ∉ pre → Forall (λ l, SEMI ∉ l) (s :: rest) →
  split SEMI (pre ++ join (js "; ") (s :: rest)) =
  (pre ++ s) :: map (λ l, SPACE :: l) rest.
Proof.
  revert pre s. induction rest as [|s' rest IH]; intros pre s Hpre Hall.
  - simpl. apply split_no_sep. rewrite elem_of_app.
    apply Forall_cons in Hall as [Hs _]. tauto.
  - apply Forall_cons in Hall as [Hs Hall].
    change (join (js "; ") (s :: s' :: rest))
      with (s ++ SEMI :: ([SPACE] ++ join (js "; ") (s' :: rest))).
    rewrite app_assoc, split_app.
    rewrite (split_no_sep SEMI (pre ++ s)) by (rewrite elem_of_app; tauto).
    rewrite IH; [done| |done].
    intros H%list_elem_of_singleton. by vm_compute in H.
Qed.

Lemma trimEnd_last s :
  (∀ c, last s = Some c → is_white_space c = false) → trimEnd s = s.
Proof.
  intros H. unfold trimEnd. rewrite trimStart_head; [apply reverse_involutive|].
  intros c. rewrite head_reverse. apply H.
Qed.

Lemma length_trimStart s : (length (trimStart s) ≤ length s)%nat.
Proof.
  destruct (trimStart_suffix s) as (w & _ & Hs). rewrite Hs at 2.
  rewrite length_app. lia.
Qed.

Lemma length_trimEnd s : (length (trimEnd s) ≤ length s)%nat.
Proof.
  destruct (trimEnd_prefix s) as (w & _ & Hs). rewrite Hs at 2.
  rewrite length_app. lia.
Qed.

Lemma render_cookie_trimmed k v :
  trimStart k = k → trimEnd v = v → trim (k ++ js "=" ++ v) = k ++ js "=" ++ v.
Proof.
  intros Hk Hv. change (k ++ js "=" ++ v) with (k ++ EQUALS :: v).
  by rewrite trim_around, Hk, Hv.
Qed.

Lemma js_ordered_no_index c :
  Forall (λ kv, array_index kv.1 = None) c → js_ordered c.
Proof.
  induction 1 as [|[k v] c Hk Hc IH]; simpl; [done|]. simpl in Hk.
  rewrite Hk. split; [|done]. intros k' (kv & -> & Hin)%list_elem_of_fmap.
  rewrite Forall_forall in Hc. by apply Hc.
Qed.

Lemma entries_of_rendered pre c :
  all_ws pre → Forall plain_cookie c →
  omap (cut_at_first EQUALS)
    (filter (λ seg : jstring, seg ≠ [])
       (map trim (map (λ '(key, value), pre ++ key ++ js "=" ++ value) c))) = c.
Proof.
  intros Hpre. induction 1 as [|[k v] c (He & _ & _ & Hk & Hv) _ IH]; [done|].
  simpl in He, Hk, Hv. rewrite !map_cons.
  assert (trim (pre ++ k ++ js "=" ++ v) = k ++ EQUALS :: v) as ->.
  { rewrite <- (app_nil_r (k ++ _)). rewrite trim_pad by (done || constructor).
    by apply render_cookie_trimmed. }
  rewrite (filter_cons_True (λ seg : jstring, seg ≠ [])) by by destruct k.
  change (omap ?f (?x :: ?l)) with (match f x with Some y => y :: omap f l | None => omap f l end).
  rewrite cut_at_first_app by done. by rewrite IH.
Qed.

Lemma trim_after_space l : trim (SPACE :: l) = trim l.
Proof. done. Qed.

Lemma spec_cookie_entries_cookie_string c :
  Forall plain_cookie c → spec_cookie_entries (cookie_string c) = c.
Proof.
  intros Hc. destruct c as [|[k v] c]; [done|].
  unfold spec_cookie_entries, cookie_string.
  assert (Forall (λ l, SEMI ∉ l) (map (λ '(key, value), key ++ js "=" ++ value)
            ((k, v) :: c))) as Hsemi.
  { apply Forall_fmap. eapply Forall_impl; [exact Hc|].
    intros [k' v'] (_ & H1 & H2 & _). simpl in *.
    rewrite elem_of_app, elem_of_cons. intros [?|[?|?]]; done. }
  rewrite map_cons in Hsemi |- *.
  rewrite <- (app_nil_l (join _ _)), split_join_semi_space
    by (done || apply not_elem_of_nil).
  rewrite app_nil_l.
  assert (map trim ((k ++ js "=" ++ v)
            :: map (λ l, SPACE :: l)
                 (map (λ '(key, value), key ++ js "=" ++ value) c)) =
          map trim (map (λ '(key, value), [] ++ key ++ js "=" ++ value) ((k, v) :: c)))
    as ->.
  { rewrite !map_cons. f_equal. rewrite <- !list_fmap_compose.
    apply list_fmap_ext. by intros _ [k' v'] _. }
  apply entries_of_rendered; [constructor | done].
Qed.

(** X5. Reading back the [Cookie] header that the static hook writes: for
    a cookie object (one property per name, listed in the order of its
    keys) with no name [__proto__], whose names have no [=], whose names and
    values have no [;], with no blank before a name or after a value, the
    raw cookie grammar applied to the header value gives the object back. *)
Theorem cookie_string_round_trip :
  ∀ c, wf_obj c → js_ordered c → PROTO ∉ obj_keys c → Forall plain_cookie c →
       parseCookieString (cookie_string c) = c.
Proof.
  intros c Hwf Hord Hp Hc.
  rewrite parseCookieString_spec, spec_cookie_entries_cookie_string by done.
  by apply mapping_of_ordered.
Qed.

Lemma cookie_string_round_trip_witness :
  parseCookieString (cookie_string [(js "sid", js "abc=="); (js "theme", js "dark mode")]) =
  [(js "sid", js "abc=="); (js "theme", js "dark mode")].
Proof.
  apply cookie_string_round_trip.
  - by_compute.
  - apply js_ordered_no_index. repeat constructor.
  - by_compute.
  - repeat constructor; simpl; by_compute.
Defined.

Lemma elem_of_obj_update kv k v o : kv ∈ obj_update k v o → kv ∈ o ∨ kv = (k, v).
Proof.
  induction o as [|[k0 v0] o IH]; simpl; [by left|].
  destruct (decide (k0 = k)) as [->|Hne].
  - intros [->|H]%elem_of_cons; [by right|]. left. by apply elem_of_cons; right.
  - intros [->|H]%elem_of_cons; [left; by apply elem_of_cons; left|].
    destruct (IH H) as [?|?]; [left; by apply elem_of_cons; right | by right].
Qed.

Lemma elem_of_obj_set kv k v o : kv ∈ obj_set k v o → kv ∈ o ∨ kv = (k, v).
Proof.
  unfold obj_set. destruct (has_own k o); [apply elem_of_obj_update|].
  destruct (bool_decide (k = PROTO)); [by left|].
  rewrite elem_of_obj_add. tauto.
Qed.

Lemma elem_of_fold_put kv entries o :
  kv ∈ fold_left put entries o → kv ∈ o ∨ kv ∈ entries.
Proof.
  revert o. induction entries as [|[k v] entries IH]; intros o; simpl; [by left|].
  intros [H|H]%IH.
  - apply elem_of_obj_set in H as [H| ->]; [by left|].
    right. by apply elem_of_cons; left.
  - right. by apply elem_of_cons; right.
Qed.

Lemma elem_of_mapping_of kv entries : kv ∈ mapping_of entries → kv ∈ entries.
Proof. intros [H|H]%elem_of_fold_put; [by apply elem_of_nil in H | done]. Qed.

(** Both halves of a trimmed text cut at a character that is not a blank
    are free of blanks at the outer ends. *)
Lemma trimmed_halves a c b :
  is_white_space c = false → trim (a ++ c :: b) = a ++ c :: b →
  trimStart a = a ∧ trimEnd b = b.
Proof.
  intros Hc. rewrite trim_around by done. intros Heq.
  destruct (trimStart_suffix a) as (w & _ & Ha).
  pose proof (length_trimEnd b) as Hb.
  assert (length (trimStart a) = length a) as Hlen.
  { apply (f_equal length) in Heq. rewrite !length_app in Heq. simpl in Heq.
    pose proof (length_trimStart a). lia. }
  apply app_inj_1 in Heq as [H1 H2]; [|done]. split; [done|]. by injection H2.
Qed.

(** Every segment of a raw cookie string that has an [=] is cut into a
    plain cookie. *)
Lemma plain_spec_cookie_entries raw : Forall plain_cookie (spec_cookie_entries raw).
Proof.
  apply Forall_forall. intros [k v] Hin. unfold spec_cookie_entries in Hin.
  apply list_elem_of_omap in Hin as (seg & [_ Hseg]%list_elem_of_filter & Hcut).
  apply list_elem_of_fmap in Hseg as (l0 & -> & Hl0).
  pose proof (indexOf_cut EQUALS (trim l0)) as Hsplit. rewrite Hcut in Hsplit.
  destruct Hsplit as (_ & Heq & Hk).
  assert (SEMI ∉ trim l0) as Hsemi.
  { intros Hin. rewrite elem_of_trim in Hin by done.
    by apply (split_segments_no_sep SEMI raw l0). }
  rewrite Heq, elem_of_app, elem_of_cons in Hsemi.
  pose proof (trim_idemp l0) as Hidem. rewrite Heq in Hidem.
  apply trimmed_halves in Hidem as [Hks Hvs]; [|done].
  unfold plain_cookie. simpl. split_and!; [done|tauto|tauto|done|done].
Qed.

(** X6. What the cookie normalizer returns has one entry per name, and
    every entry has no [=] in its name, no [;] in its name or value, no
    blank before its name and none after its value. *)
Theorem cookie_normalizer_entries :
  ∀ raw,
    wf_obj (cookiesFromRawString raw) ∧
    ∀ k v, obj_get k (cookiesFromRawString raw) = Some v → plain_cookie (k, v).
Proof.
  intros raw. rewrite cookiesFromRawString_parse.
  split; [apply wf_parseCookieString|].
  intros k v Hget%obj_get_Some_elem_of.
  rewrite parseCookieString_spec in Hget. apply elem_of_mapping_of in Hget.
  pose proof (plain_spec_cookie_entries raw) as Hplain.
  rewrite Forall_forall in Hplain. by apply Hplain.
Qed.

Lemma cookie_normalizer_entries_witness :
  plain_cookie (js "sid", js "abc==").
Proof.
  apply (proj2 (cookie_normalizer_entries (js " sid=abc== ; theme = dark"))).
  reflexivity.
Defined.

(** X7. Writing the normalized cookies as a [Cookie] header, as the static
    hook does, and normalizing that header again gives the same cookies. *)
Theorem cookie_normal_form :
  ∀ raw, parseCookieString (cookie_string (parseCookieString raw)) =
         parseCookieString raw.
Proof.
  intros raw. rewrite parseCookieString_spec at 1.
  rewrite spec_cookie_entries_cookie_string.
  - apply mapping_of_ordered;
      [apply wf_parseCookieString | apply proto_parseCookieString |].
    rewrite parseCookieString_spec. apply js_ordered_mapping_of.
  - apply Forall_forall. intros kv Hin.
    rewrite parseCookieString_spec in Hin. apply elem_of_mapping_of in Hin.
    pose proof (plain_spec_cookie_entries raw) as Hplain.
    rewrite Forall_forall in Hplain. by apply Hplain.
Qed.

(** ** The pre-navigation hooks *)

Lemma nonempty_keys (o : JsObj) :
  (0 <? length (obj_keys o))%nat = bool_decide (o ≠ []).
Proof. by destruct o. Qed.

Lemma wf_processHeaders σ headers cookies :
  wf_obj (σ headers) → wf_obj (processHeaders headers cookies σ).1.
Proof.
  intros Hwf. rewrite processHeaders_headers. by do 2 apply wf_drop_first_named.
Qed.

Lemma staticPreNavigationHook_eq request_headers headers cookies σ :
  staticPreNavigationHook request_headers headers cookies σ =
  (if bool_decide ((processHeaders headers cookies σ).2 cookies ≠ [])
   then obj_define (js "Cookie")
          (cookie_string ((processHeaders headers cookies σ).2 cookies))
          (obj_spread request_headers (processHeaders headers cookies σ).1)
   else obj_spread request_headers (processHeaders headers cookies σ).1,
   (processHeaders headers cookies σ).2).
Proof.
  unfold staticPreNavigationHook, mbind, Eff_bind, mret, Eff_ret, deref.
  destruct (processHeaders headers cookies σ) as [sane σ1]. cbn [fst snd].
  rewrite !nonempty_keys.
  assert ((if bool_decide (sane ≠ []) then obj_spread request_headers sane
           else request_headers) = obj_spread request_headers sane) as ->
    by by destruct sane.
  by destruct (bool_decide (σ1 cookies ≠ [])).
Qed.

(** X8. The headers the static hook gives the request: the [Cookie] header
    is the serialized cookie mapping whenever that mapping, after the merge
    of a cookie header, is not empty; under any other name the reconciled
    custom header wins over the header the request already had; and the
    hook writes to no object beyond what [processHeaders] writes. *)
Theorem static_hook_precedence :
  ∀ request_headers σ headers cookies,
    wf_obj (σ headers) →
    let sane := (processHeaders headers cookies σ).1 in
    let merged := (processHeaders headers cookies σ).2 cookies in
    let result := (staticPreNavigationHook request_headers headers cookies σ).1 in
    (merged ≠ [] → obj_get (js "Cookie") result = Some (cookie_string merged)) ∧
    (∀ name, merged = [] ∨ name ≠ js "Cookie" →
       obj_get name result =
       match obj_get name sane with
       | Some v => Some v
       | None => obj_get name request_headers
       end) ∧
    (staticPreNavigationHook request_headers headers cookies σ).2 =
      (processHeaders headers cookies σ).2.
Proof.
  intros rh σ headers cookies Hwf sane merged result.
  subst result. rewrite staticPreNavigationHook_eq. cbn [fst snd].
  fold sane merged. pose proof (wf_processHeaders σ headers cookies Hwf) as Hsane.
  fold sane in Hsane. split_and!; [| |done].
  - intros Hne. rewrite bool_decide_eq_true_2 by done.
    rewrite obj_get_define. by rewrite decide_True.
  - intros name Hname. destruct (bool_decide_reflect (merged ≠ [])) as [Hne|_].
    + destruct Hname as [?|Hname]; [done|].
      rewrite obj_get_define, decide_False by done. by apply obj_get_spread.
    + by apply obj_get_spread.
Qed.

Lemma static_hook_precedence_witness :
  obj_get (js "Cookie")
    (staticPreNavigationHook [(js "Accept", js "*/*")] jsonHeaders_ref cookiesObj_ref
       (item_store [(js "Cookie", js "a=1"); (js "Accept", js "text/html")]
          [(js "b", js "2")])).1 =
  Some (cookie_string
          ((processHeaders jsonHeaders_ref cookiesObj_ref
              (item_store [(js "Cookie", js "a=1"); (js "Accept", js "text/html")]
                 [(js "b", js "2")])).2 cookiesObj_ref)).
Proof.
  apply (static_hook_precedence [(js "Accept", js "*/*")]
    (item_store [(js "Cookie", js "a=1"); (js "Accept", js "text/html")]
       [(js "b", js "2")]) jsonHeaders_ref cookiesObj_ref).
  - by_compute.
  - vm_compute. discriminate.
Defined.

Lemma browserPreNavigationHook_eq originalUrl headers cookies σ :
  browserPreNavigationHook originalUrl headers cookies σ =
  ((if bool_decide ((processHeaders headers cookies σ).1 ≠ [])
    then SetExtraHTTPHeaders (processHeaders headers cookies σ).1 ::
         map AddInitScript
           (init_scripts (browserPreNavigationHook originalUrl headers cookies σ).1)
    else []) ++
   [SetViewportSize 1920 1080] ++
   (if bool_decide ((processHeaders headers cookies σ).2 cookies ≠ [])
    then [AddCookies (map (λ '(name, value), (name, value, originalUrl))
                        ((processHeaders headers cookies σ).2 cookies))]
    else []),
   (processHeaders headers cookies σ).2).
Proof.
  rewrite hook_init_scripts.
  unfold browserPreNavigationHook, mbind, Eff_bind, mret, Eff_ret, deref.
  destruct (processHeaders headers cookies σ) as [sane σ1]. cbn [fst snd].
  rewrite !nonempty_keys. f_equal. f_equal.
  destruct (bool_decide (sane ≠ [])); [|done]. f_equal.
  destruct (array_find (lower_is (js "user-agent")) (obj_keys sane)) as [k|] eqn:Ek;
    [|done].
  apply array_find_Some in Ek as [_ Hk].
  rewrite (lower_is_truthy (js "user-agent") k) by done.
  by destruct (obj_get k sane).
Qed.

Lemma viewports_app a b : viewports (a ++ b) = viewports a ++ viewports b.
Proof. apply omap_app. Qed.
Lemma added_cookies_app a b : added_cookies (a ++ b) = added_cookies a ++ added_cookies b.
Proof. apply omap_app. Qed.
Lemma extra_headers_app a b : extra_headers (a ++ b) = extra_headers a ++ extra_headers b.
Proof. apply omap_app. Qed.

Lemma omap_map_AddInitScript {B} (f : PageAction → option B) l :
  (∀ ua, f (AddInitScript ua) = None) → omap f (map AddInitScript l) = [].
Proof.
  intros Hf. induction l as [|ua l IH]; [done|]. csimpl. by rewrite Hf.
Qed.

(** X9. The calls the browser hook makes on the page: the viewport is set
    once, to 1920 by 1080; the reconciled headers are set as extra headers
    exactly when there are some; the cookie mapping, after the merge of a
    cookie header, is added with every cookie bound to the item's URL
    exactly when it is not empty.  In particular every cookie of a [Cookie]
    custom header is added to the browser context. *)
Theorem browser_hook_calls :
  ∀ originalUrl σ headers cookies,
    let sane := (processHeaders headers cookies σ).1 in
    let merged := (processHeaders headers cookies σ).2 cookies in
    let setup := (browserPreNavigationHook originalUrl headers cookies σ).1 in
    viewports setup = [(1920, 1080)] ∧
    extra_headers setup = (if bool_decide (sane ≠ []) then [sane] else []) ∧
    added_cookies setup =
      (if bool_decide (merged ≠ [])
       then [map (λ '(name, value), (name, value, originalUrl)) merged] else []) ∧
    (∀ k raw name value,
       array_find (lower_is (js "cookie")) (obj_keys (σ headers)) = Some k →
       obj_get k (σ headers) = Some raw →
       obj_get name (parseCookieString raw) = Some value →
       ∃ cs, added_cookies setup = [cs] ∧ (name, value, originalUrl) ∈ cs).
Proof.
  intros url σ headers cookies sane merged setup.
  assert (viewports setup = [(1920, 1080)] ∧
          extra_headers setup = (if bool_decide (sane ≠ []) then [sane] else []) ∧
          added_cookies setup =
            (if bool_decide (merged ≠ [])
             then [map (λ '(name, value), (name, value, url)) merged] else []))
    as (Hv & Hh & Hc).
  { subst setup. rewrite browserPreNavigationHook_eq. cbn [fst]. fold sane merged.
    rewrite !viewports_app, !extra_headers_app, !added_cookies_app.
    destruct (bool_decide (sane ≠ [])), (bool_decide (merged ≠ []));
      csimpl; unfold viewports, extra_headers, added_cookies;
      rewrite ?omap_map_AddInitScript by done; done. }
  split_and!; [done..|].
  intros k raw name value Hk Hraw Hget.
  assert (merged = obj_assign (σ cookies) (parseCookieString raw)) as Hmerged.
  { subst merged. rewrite processHeaders_eq, Hk, Hraw. simpl.
    by rewrite fn_lookup_insert. }
  assert ((name, value) ∈ merged) as Hin.
  { apply obj_get_Some_elem_of. rewrite Hmerged, obj_get_assign, Hget;
      [done | apply wf_parseCookieString | apply proto_parseCookieString]. }
  rewrite Hc. rewrite bool_decide_eq_true_2 by (intros E; rewrite E in Hin;
    by apply elem_of_nil in Hin).
  eexists. split; [done|].
  apply list_elem_of_fmap. by exists (name, value).
Qed.

Lemma browser_hook_calls_witness :
  ∃ cs,
    added_cookies
      (browserPreNavigationHook (js "http://up.test/") jsonHeaders_ref cookiesObj_ref
         (item_store [(js "Cookie", js "a=1")] [])).1 = [cs] ∧
    (js "a", js "1", js "http://up.test/") ∈ cs.
Proof.
  apply (proj2 (proj2 (proj2 (browser_hook_calls (js "http://up.test/")
    (item_store [(js "Cookie", js "a=1")] []) jsonHeaders_ref cookiesObj_ref)))
    (js "Cookie") (js "a=1")); reflexivity.
Defined.

(** ** [parseRawHeaders], further *)

Lemma spec_valid_key_true key :
  spec_valid_key key = true → key ≠ [] ∧ SPACE ∉ key.
Proof.
  unfold spec_valid_key, includes. rewrite !andb_true_iff, !negb_true_iff.
  intros [[H1%bool_decide_eq_false H2%bool_decide_eq_false] _]. done.
Qed.

Lemma elem_of_strip_quotes c s : c ∈ strip_quotes s ↔ ¬ is_quote c ∧ c ∈ s.
Proof. unfold strip_quotes. apply (list_elem_of_filter (λ c, ¬ is_quote c)). Qed.

Lemma clean_stripped s :
  COLON ∉ s → spec_valid_key (strip_quotes s) = true →
  clean_header_key (strip_quotes s).
Proof.
  intros Hc [Hne Hsp]%spec_valid_key_true. unfold clean_header_key.
  split_and!; [done..| | |].
  - by intros [_ ?]%elem_of_strip_quotes.
  - intros [Hq _]%elem_of_strip_quotes. apply Hq. by left.
  - intros [Hq _]%elem_of_strip_quotes. apply Hq. by right.
Qed.

Lemma header_lines_no_colon raw l : COLON ∉ raw → l ∈ header_lines raw → COLON ∉ l.
Proof.
  intros Hraw Hl Hc. apply Hraw. apply (elem_of_split COLON LF raw); [done|].
  unfold header_lines in Hl.
  apply list_elem_of_filter in Hl as [_ (l0 & -> & Hl0)%list_elem_of_fmap].
  exists l0. split; [done|]. by rewrite elem_of_trim in Hc.
Qed.

(** X10. What [parseRawHeaders] returns, in either grammar: one entry per
    key; every key is non-empty and has no space, no colon and no quote
    character in it; every value is trimmed. *)
Theorem parseRawHeaders_entries :
  ∀ raw,
    wf_obj (parseRawHeaders raw) ∧
    ∀ k v, obj_get k (parseRawHeaders raw) = Some v →
           clean_header_key k ∧ trim v = v.
Proof.
  intros raw. destruct (decide (COLON ∈ raw)) as [Hc|Hc].
  - rewrite parseRawHeaders_colon_refines by by apply includes_true.
    split; [apply wf_obj_fold_put, NoDup_nil_2|].
    intros k v Hget%obj_get_Some_elem_of%elem_of_mapping_of.
    apply list_elem_of_omap in Hget as (line & _ & Hentry).
    unfold spec_colon_entry in Hentry.
    pose proof (indexOf_cut COLON line) as Hcut.
    destruct (cut_at_first COLON line) as [[a b]|]; [|done].
    destruct Hcut as (_ & _ & Ha). simpl in Hentry.
    rewrite strip_quotes_unquote in Hentry.
    destruct (spec_valid_key (strip_quotes (trim a))) eqn:Hvalid; [|done].
    injection Hentry as <- <-. split; [|apply trim_idemp].
    apply clean_stripped; [|done]. intros Hin. by rewrite elem_of_trim in Hin.
  - rewrite parseRawHeaders_alternating_refines by done.
    split; [apply wf_obj_fold_put, NoDup_nil_2|].
    intros k v Hget%obj_get_Some_elem_of%elem_of_mapping_of.
    unfold spec_alternating_entries in Hget. rewrite <- header_lines_spec in Hget.
    apply list_elem_of_omap in Hget as ([kl vl] & Hpair & Hentry).
    apply elem_of_spec_pairs in Hpair as [Hkl Hvl]. simpl in Hkl, Hvl.
    unfold spec_alternating_entry in Hentry. simpl in Hentry.
    rewrite strip_quotes_unquote in Hentry.
    destruct (spec_valid_key (strip_quotes kl)) eqn:Hvalid; [|done].
    injection Hentry as <- <-. split; [|by eapply header_lines_trimmed].
    apply clean_stripped; [|done]. by eapply header_lines_no_colon.
Qed.

Lemma parseRawHeaders_entries_witness :
  clean_header_key (js "User-Agent") ∧ trim (js "Mozilla/5.0 (X11)") = js "Mozilla/5.0 (X11)".
Proof.
  apply (proj2 (parseRawHeaders_entries (js " 'User-Agent' :  Mozilla/5.0 (X11) "))).
  reflexivity.
Defined.

Lemma trim_all_ws w : all_ws w → trim w = [].
Proof. intros Hw. unfold trim. by rewrite trimStart_all_ws. Qed.

Lemma header_lines_blank raw : all_ws raw → header_lines raw = [].
Proof.
  intros Hraw. apply elem_of_nil_inv. intros l Hl. unfold header_lines in Hl.
  apply list_elem_of_filter in Hl as [Hne (l0 & -> & Hl0)%list_elem_of_fmap].
  rewrite trim_all_ws in Hne; [done|].
  apply Forall_forall. intros c Hc. unfold all_ws in Hraw.
  rewrite Forall_forall in Hraw. apply Hraw.
  apply (elem_of_split c LF raw).
  - intros ->. by apply (split_segments_no_sep LF raw l0).
  - by exists l0.
Qed.

(** X11. Input with nothing to pair: a raw header string without a colon
    and with fewer than two non-empty lines gives the empty mapping; so does
    a raw header string made of blanks and line breaks only. *)
Theorem parseRawHeaders_nothing_to_pair :
  ∀ raw,
    (COLON ∉ raw → (length (header_lines raw) < 2)%nat → parseRawHeaders raw = []) ∧
    (all_ws raw → parseRawHeaders raw = []).
Proof.
  intros raw.
  assert (COLON ∉ raw → (length (header_lines raw) < 2)%nat → parseRawHeaders raw = [])
    as Hfew.
  { intros Hc Hlen. rewrite parseRawHeaders_alternating_refines by done.
    unfold spec_alternating_entries. rewrite <- header_lines_spec.
    destruct (header_lines raw) as [|l1 [|l2 ls]]; [done..|simpl in Hlen; lia]. }
  split; [done|]. intros Hws. apply Hfew.
  - by apply all_ws_not_colon.
  - rewrite header_lines_blank by done. simpl. lia.
Qed.

Lemma parseRawHeaders_nothing_to_pair_witness :
  parseRawHeaders (js "  Host  ") = [] ∧ parseRawHeaders (js "
   ") = [].
Proof.
  split.
  - apply (proj1 (parseRawHeaders_nothing_to_pair (js "  Host  "))).
    + by_compute.
    + vm_compute. lia.
  - apply (proj2 (parseRawHeaders_nothing_to_pair (js "
   "))).
    repeat constructor.
Defined.

Lemma strip_quotes_clean k : QUOTE ∉ k → DQUOTE ∉ k → strip_quotes k = k.
Proof.
  intros H1 H2. unfold strip_quotes. induction k as [|c k IH]; [done|].
  rewrite not_elem_of_cons in H1, H2. destruct H1 as [H1 H1'], H2 as [H2 H2'].
  rewrite (filter_cons_True (λ c, ¬ is_quote c)) by (intros [?|?]; congruence).
  f_equal. by apply IH.
Qed.

Lemma spec_valid_key_clean k : clean_header_key k → spec_valid_key k = true.
Proof.
  intros (Hne & Hsp & Hc & _). unfold spec_valid_key, includes.
  rewrite !bool_decide_eq_false_2 by done. simpl.
  destruct k as [|c k]; [done|]. simpl.
  rewrite bool_decide_eq_false_2; [done|].
  intros ->. apply Hc. by apply elem_of_cons; left.
Qed.

Lemma spec_colon_entry_header_line kv :
  one_line_header kv → spec_colon_entry (header_line kv) = Some kv.
Proof.
  destruct kv as [k v]. intros (Hclean & Hk & Hv & _). simpl in *.
  unfold spec_colon_entry, header_line. simpl fst. simpl snd.
  change (k ++ js ": " ++ v) with (k ++ COLON :: SPACE :: v).
  pose proof Hclean as (_ & _ & Hc & Hq & Hdq).
  rewrite cut_at_first_app by done. simpl.
  rewrite Hk, strip_quotes_unquote, strip_quotes_clean by done.
  rewrite spec_valid_key_clean by done.
  by rewrite trim_after_space, Hv.
Qed.

(** X12. Headers written one per line as [Key: Value] are read as written:
    for the properties of an object (distinct keys, listed in the order of
    its keys) with clean keys other than [__proto__] and trimmed one-line
    values, [parseRawHeaders] returns exactly these headers, in order. *)
Theorem parseRawHeaders_key_value_lines :
  ∀ entries,
    entries ≠ [] → wf_obj entries → js_ordered entries →
    PROTO ∉ obj_keys entries → Forall one_line_header entries →
    parseRawHeaders (join [LF] (map header_line entries)) = entries.
Proof.
  intros entries Hne Hwf Hord Hp Hall.
  assert (Forall (λ l, LF ∉ l) (map header_line entries)) as Hlf.
  { apply Forall_fmap. eapply Forall_impl; [exact Hall|].
    intros [k v] (_ & _ & _ & Hk & Hv). unfold header_line. simpl in *.
    change (k ++ js ": " ++ v) with (k ++ COLON :: SPACE :: v).
    rewrite elem_of_app, !elem_of_cons. intros [?|[?|[?|?]]]; done. }
  assert (map header_line entries ≠ []) as Hne' by by destruct entries.
  rewrite parseRawHeaders_colon_refines.
  - unfold spec_colon_entries. rewrite split_join by done.
    rewrite <- (mapping_of_ordered entries Hwf Hp Hord) at 2. f_equal.
    clear -Hall. induction Hall as [|kv entries Hkv _ IH]; [done|].
    csimpl. by rewrite spec_colon_entry_header_line, IH.
  - apply includes_join_lines; [done..|].
    destruct entries as [|[k v] entries]; [done|].
    exists (header_line (k, v)). split; [by apply elem_of_cons; left|].
    unfold header_line. simpl. apply elem_of_app. right. by apply elem_of_cons; left.
Qed.

Lemma parseRawHeaders_key_value_lines_witness :
  parseRawHeaders
    (join [LF] (map header_line
       [(js "User-Agent", js "Mozilla/5.0 (X11; Linux)"); (js "Accept", js "a:b")])) =
  [(js "User-Agent", js "Mozilla/5.0 (X11; Linux)"); (js "Accept", js "a:b")].
Proof.
  apply parseRawHeaders_key_value_lines.
  - done.
  - by_compute.
  - apply js_ordered_no_index. repeat constructor.
  - by_compute.
  - repeat constructor; simpl; try by_compute; reflexivity.
Defined.

(** ** The loop of [execute], further *)

Section DispatcherProperties.

Variable host : Host.

(** The loop over a stretch of items none of which throws. *)
Lemma execute_loop_skip k :
  ∀ rounds itemIndex st,
    (itemIndex + k ≤ length (items st))%nat →
    (∀ j, (itemIndex ≤ j < itemIndex + k)%nat → no_failure host j) →
    ∃ st', items st' = items st ∧
           returnData st' =
             returnData st ++ concat (map (item_records host) (seq itemIndex k)) ∧
           execute_loop host (k + rounds) itemIndex st =
           execute_loop host rounds (itemIndex + k) st'.
Proof.
  induction k as [|k IH]; intros rounds i st Hlen Hok.
  - exists st. rewrite Nat.add_0_r, app_nil_r. done.
  - destruct (run_item_passes host i st) as (st1 & Hrun & Hitems & Hret);
      [apply no_failure_throws, Hok; lia|].
    destruct (IH rounds (S i) st1) as (st' & Hitems' & Hret' & Hloop).
    { rewrite Hitems. lia. }
    { intros j Hj. apply Hok. lia. }
    exists st'. split_and!.
    + congruence.
    + rewrite Hret', Hret. cbn [seq map concat]. by rewrite <- app_assoc.
    + cbn [Nat.add execute_loop].
      destruct (Nat.ltb_spec i (length (items st))); [|lia].
      rewrite Hrun, Hloop. f_equal. lia.
Qed.

(** X15. When nothing throws while the items of the batch are processed
    (every proxy list is empty or accepted, and every [run] that is called
    returns), [execute] returns after one round per item and one more,
    whatever the failure policy, and what it returns is the records of the
    items one after the other, in the order of the items; the records of an
    item do not depend on the items before it. *)
Theorem execute_without_failures :
  (∀ j, (j < length (getInputData host 0))%nat → no_failure host j) →
  execute host (S (length (getInputData host 0))) =
  Returned
    (concat (map (item_records host) (seq 0 (length (getInputData host 0))))).
Proof.
  intros Hok. unfold execute.
  destruct (execute_loop_skip (length (getInputData host 0)) 1 0
              {| items := getInputData host 0; returnData := []; fetches := [] |})
    as (st' & Hitems & Hret & Hloop).
  { simpl. lia. }
  { intros j Hj. apply Hok. lia. }
  rewrite Nat.add_1_r in Hloop. rewrite Hloop. cbn [execute_loop Nat.add].
  rewrite Hitems. cbn [items]. rewrite Nat.ltb_irrefl. by rewrite Hret.
Qed.

(** X16. With continue-on-fail off, the first item whose processing throws
    (a proxy list that the constructor rejects, whatever the operation, or
    a [run] that throws) ends the run: [execute] throws one error that
    carries the index of that item, as soon as the loop has reached it, and
    the records of the items before it are not returned. *)
Theorem first_failure_aborts :
  ∀ itemIndex error rounds,
    continueOnFail host = false →
    (itemIndex < length (getInputData host 0))%nat →
    (∀ j, (j < itemIndex)%nat → no_failure host j) →
    item_failure host itemIndex error →
    (itemIndex < rounds)%nat →
    ∃ t, execute host rounds = Threw t ∧ thrown_itemIndex t = Some itemIndex.
Proof.
  intros i error rounds Hpolicy Hi Hok Hfail%item_failure_throws Hrounds.
  unfold execute.
  destruct (execute_loop_skip i (rounds - i) 0
              {| items := getInputData host 0; returnData := []; fetches := [] |})
    as (st' & Hitems & _ & Hloop).
  { simpl. lia. }
  { intros j Hj. apply Hok. lia. }
  replace (i + (rounds - i))%nat with rounds in Hloop by lia. rewrite Hloop.
  destruct (rounds - i)%nat as [|r] eqn:Hr; [lia|]. cbn [execute_loop Nat.add].
  rewrite Hitems. cbn [items].
  destruct (Nat.ltb_spec i (length (getInputData host 0))); [|lia].
  destruct (run_item_thrown host i st' error Hfail Hpolicy) as (t & -> & Ht).
  by exists t.
Qed.

(** X18. When the crawler comes back without having handled a page, link
    extraction still appends one record, with an empty list of links, and
    text and HTML extraction append nothing for the item. *)
Theorem no_page_handled :
  ∀ itemIndex f,
    item_request host itemIndex = Some f →
    crawl host f = CrawlHandled [] →
    let p := getNodeParameter host itemIndex in
    (param_operation p = js "extractLinks" →
     ∃ r, item_records host itemIndex = [r] ∧ out_url r = param_url p ∧
          payload_links (out_payload r) = Some []) ∧
    (param_operation p ≠ js "extractLinks" → item_records host itemIndex = []).
Proof.
  intros i f Hreq [Hproxy Hrun]%crawl_handled p. subst p. revert Hreq Hproxy Hrun.
  unfold item_request, item_records, try_block, run_crawler, eqs. cbn zeta.
  intros Hreq Hproxy Hrun. split; intros Hop; revert Hreq Hproxy Hrun.
  - rewrite Hop.
    rewrite (bool_decide_eq_true_2 (js "extractLinks" = js "extractLinks")) by done.
    intros [= <-]. rewrite item_fetch_proxyUrls. intros -> ->. by eexists.
  - rewrite (bool_decide_eq_false_2 _ Hop). cbn [orb].
    repeat case_bool_decide; cbn [orb]; try done;
      intros [= <-]; rewrite item_fetch_proxyUrls; by intros -> ->.
Qed.

End DispatcherProperties.

(** ** The loop on the example host *)

Lemma execute_without_failures_witness :
  let h := Demo.host [Demo.item "{}"; Demo.item "{}"] (Demo.up "extractLinks")
             (Demo.up "extractText") true in
  execute h 3 = Returned (item_records h 0 ++ item_records h 1 ++ []).
Proof.
  cbn zeta.
  apply (execute_without_failures
           (Demo.host [Demo.item "{}"; Demo.item "{}"] (Demo.up "extractLinks")
              (Demo.up "extractText") true)).
  intros [|[|j]] Hj; [| |simpl in Hj; lia].
  - split; [reflexivity|]. intros f error [= <-]. vm_compute. discriminate.
  - split; [reflexivity|]. intros f error [= <-]. vm_compute. discriminate.
Defined.

Lemma first_failure_aborts_witness :
  ∃ t,
    execute
      (Demo.host [Demo.item "{}"; Demo.item "{}"; Demo.item "{}"]
         (Demo.up "extractText") (Demo.with_proxy (Demo.up "noop") "garbage") false)
      2 = Threw t ∧
    thrown_itemIndex t = Some 1%nat.
Proof.
  apply (first_failure_aborts
           (Demo.host [Demo.item "{}"; Demo.item "{}"; Demo.item "{}"]
              (Demo.up "extractText") (Demo.with_proxy (Demo.up "noop") "garbage") false)
           1%nat Demo.rejected 2%nat).
  - reflexivity.
  - simpl. lia.
  - intros [|j] Hj; [|lia]. split; [reflexivity|].
    intros f error [= <-]. vm_compute. discriminate.
  - left. reflexivity.
  - lia.
Defined.

Lemma no_page_handled_witness :
  let h := Demo.host [Demo.item "{}"] (Demo.down "extractLinks") (Demo.up "noop") false in
  ∃ r, item_records h 0 = [r] ∧ out_url r = js "http://down.test" ∧
       payload_links (out_payload r) = Some [].
Proof.
  cbn zeta.
  apply (proj1 (no_page_handled
           (Demo.host [Demo.item "{}"] (Demo.down "extractLinks") (Demo.up "noop") false)
           0 _ eq_refl eq_refl) eq_refl).
Defined.

(** ** The proxy list and the page records *)

Lemma trim_nil_all_ws s : trim s = [] → all_ws s.
Proof.
  destruct (trimStart_cases s) as [[Hs _]|(w & c & b & _ & Hc & -> & _)]; [done|].
  rewrite trim_around by done. by destruct (trimStart w).
Qed.

Lemma all_ws_split s : all_ws s ↔ Forall all_ws (split LF s).
Proof.
  unfold all_ws. rewrite !Forall_forall. split.
  - intros Hs l Hl. apply Forall_forall. intros c Hc. apply Hs.
    apply (elem_of_split c LF s).
    + intros ->. by apply (split_segments_no_sep LF s l).
    + by exists l.
  - intros Hsegs c Hc. destruct (decide (c = LF)) as [->|Hne]; [done|].
    apply (elem_of_split c LF s) in Hc as (l & Hl & Hc); [|done].
    specialize (Hsegs l Hl). rewrite Forall_forall in Hsegs. by apply Hsegs.
Qed.

(** X19. The proxy list of an item.  No proxy configuration is built
    exactly when the field holds white space only.  A list that is built is
    not empty and its entries are non-empty, trimmed and on one line each.  A
    field that holds such entries one per line gives these entries back, in
    their order. *)
Theorem proxy_list :
  ∀ p,
    (item_proxyConfiguration p = None ↔ all_ws (param_proxyUrls p)) ∧
    (∀ l, item_proxyConfiguration p = Some l →
          l ≠ [] ∧ Forall (λ u, u ≠ [] ∧ trim u = u ∧ (LF ∉ u)) l) ∧
    (∀ l, l ≠ [] → Forall (λ u, u ≠ [] ∧ trim u = u ∧ (LF ∉ u)) l →
          param_proxyUrls p = join [LF] l →
          item_proxyConfiguration p = Some l).
Proof.
  intros p. unfold item_proxyConfiguration. cbn zeta.
  set (lines := split LF (param_proxyUrls p)).
  set (urls := filter (λ url : jstring, truthy url = true) (map trim lines)).
  split_and!.
  - rewrite all_ws_split. fold lines. destruct urls as [|u urls'] eqn:Hurls; simpl.
    + split; [intros _|done]. apply Forall_forall. intros l Hl.
      apply trim_nil_all_ws. destruct (trim l) as [|c t] eqn:Ht; [done|].
      assert (c :: t ∈ urls) as Hin; [|by rewrite Hurls in Hin; apply elem_of_nil in Hin].
      apply list_elem_of_filter. split; [done|].
      apply list_elem_of_fmap. by exists l.
    + split; [done|]. intros Hall.
      assert (u ∈ urls) as Hin by (rewrite Hurls; by left).
      apply list_elem_of_filter in Hin as [Hu (l & -> & Hl)%list_elem_of_fmap].
      rewrite Forall_forall in Hall. by rewrite (trim_all_ws l (Hall l Hl)) in Hu.
  - intros l. destruct urls as [|u urls'] eqn:Hurls; simpl; [done|].
    intros [= <-]. split; [done|]. rewrite <- Hurls.
    apply Forall_forall. intros x [Hx (l & -> & Hl)%list_elem_of_fmap]%list_elem_of_filter.
    split_and!.
    + by apply truthy_nonempty.
    + apply trim_idemp.
    + intros Hin%elem_of_trimEnd%elem_of_trimStart.
      by apply (split_segments_no_sep LF (param_proxyUrls p) l).
  - intros l Hne Hl Hraw. subst urls lines. rewrite Hraw.
    rewrite split_join; [|by eapply Forall_impl; [exact Hl|]; intros u (_ & _ & ?)|done].
    assert (filter (λ url : jstring, truthy url = true) (map trim l) = l) as ->.
    { clear Hne Hraw. induction Hl as [|u l (Hu & Htrim & _) _ IH]; [done|].
      rewrite map_cons, Htrim.
      rewrite (filter_cons_True (λ url : jstring, truthy url = true))
        by by apply truthy_nonempty.
      by rewrite IH. }
    by destruct l.
Qed.

Lemma proxy_list_witness :
  item_proxyConfiguration
    {| param_url := js "http://up.test/";
       param_operation := js "extractText";
       param_useBrowser := false;
       param_proxyUrls := join [LF] [js "http://p1:8000"; js "http://p2:8000"];
       param_headerInputType := js "json";
       param_jsonHeaders := [];
       param_rawHeaderString := [];
       param_cookieInputType := js "json";
       param_jsonCookies := [];
       param_rawCookieString := [] |} =
  Some [js "http://p1:8000"; js "http://p2:8000"].
Proof.
  apply (proj2 (proj2 (proxy_list _))).
  - done.
  - repeat constructor; try done; by_compute.
  - reflexivity.
Defined.

(** X20. The title and the description in the record of a page are the
    same for text and for HTML extraction.  Without the browser an empty
    title or description is reported as missing, never as the empty string;
    with the browser the title is always reported, empty or not.  The text
    of a text record is trimmed. *)
Theorem page_record_fields :
  ∀ useBrowser originalUrl pg,
    let text := out_payload (text_record useBrowser originalUrl pg) in
    let html := out_payload (html_record useBrowser originalUrl pg) in
    payload_title text = payload_title html ∧
    payload_description text = payload_description html ∧
    (useBrowser = false →
       payload_title text ≠ Some [] ∧ payload_description text ≠ Some [] ∧
       (title_text pg ≠ [] → payload_title text = Some (title_text pg))) ∧
    (useBrowser = true → payload_title text = Some (title_text pg)) ∧
    ∃ t title description,
      text = TextPayload t title description ∧ trim t = t.
Proof.
  intros useBrowser originalUrl pg. cbn zeta.
  unfold text_record, html_record. cbn [out_payload].
  destruct useBrowser; cbn [payload_title payload_description]; split_and!;
    try done.
  - do 3 eexists. split; [done|]. apply trim_idemp.
  - intros _. split_and!.
    + by destruct (title_text pg).
    + by destruct (meta_description pg) as [[|??]|].
    + by destruct (title_text pg).
  - do 3 eexists. split; [done|]. apply trim_idemp.
Qed.

Lemma page_record_fields_witness :
  payload_title
    (out_payload (text_record false (js "http://up.test/")
       {| request_url := js "http://up.test/"; anchor_hrefs := [];
          body_text := js " Hello "; title_text := [];
          meta_description := Some []; content := [] |})) ≠ Some [].
Proof.
  apply (proj1 (proj1 (proj2 (proj2 (page_record_fields false (js "http://up.test/")
    {| request_url := js "http://up.test/"; anchor_hrefs := [];
       body_text := js " Hello "; title_text := [];
       meta_description := Some []; content := [] |}))) eq_refl)).
Defined.
